(** * 24HourClock: the segment-selection engine of [src/Clock.jsx]

    A shallow embedding of the [Clock] component: the values it keeps in
    [localStorage] (JSON text), the geometry that maps a pointer position to
    one of 24 sectors, and the mouse handlers that turn pointer events into
    updates of [segmentColors].

    Number model.  JavaScript numbers are read as real numbers: [Math.hypot],
    [Math.atan2], [Math.cos], [Math.sin], [%] and [Math.floor] are the exact
    mathematical functions.  IEEE-754 rounding is outside the model.

    String model.  A JavaScript string is its sequence of UTF-16 code units. *)

From Stdlib Require Import Reals Lra Lia ZArith NArith List Bool Ascii String.
From Stdlib Require Import DecimalString.
From Stdlib Require Import Sorted Permutation.
Import ListNotations.

Set Implicit Arguments.
Set Warnings "-register-all".
Local Open Scope list_scope.

(* ================================================================== *)
(** * Part I.  Definitions                                             *)
(* ================================================================== *)

(** ** JavaScript strings and JSON values *)

Definition jstring := list N.

(** An ASCII literal of the source, as code units. *)
Definition lit (s : string) : jstring :=
  map N_of_ascii (list_ascii_of_string s).
Arguments lit s%_string.

Definition jstring_eq_dec (a b : jstring) : {a = b} + {a <> b} :=
  list_eq_dec N.eq_dec a b.

(** The values [JSON.parse] can produce.  A number keeps the decimal text it
    was read from; the double it denotes is not computed. *)
Inductive value : Type :=
| JNull
| JBool (b : bool)
| JNumber (lexeme : jstring)
| JString (s : jstring)
| JArray (elems : list value)
| JObject (props : list (jstring * value)).

(** An ordinary object: its own properties in the order [OwnPropertyKeys]
    lists them (array-index keys ascending, then the other keys in creation
    order). *)
Definition obj := list (jstring * value).

Definition is_digit (c : N) : bool := ((48 <=? c) && (c <=? 57))%N.

Fixpoint digits_value (acc : N) (s : jstring) : option N :=
  match s with
  | [] => Some acc
  | c :: s' =>
      if is_digit c then digits_value (acc * 10 + (c - 48))%N s' else None
  end.

(** [array_index k = Some n] when [k] is the canonical decimal text of an
    integer [n < 2^32 - 1]. *)
Definition array_index (k : jstring) : option N :=
  match k with
  | [] => None
  | c :: rest =>
      if ((c =? 48)%N && negb (Nat.eqb (List.length rest) 0))%bool then None
      else match digits_value 0 k with
           | Some n => if (n <? 4294967295)%N then Some n else None
           | None => None
           end
  end.

(** [o[k]] on own properties. *)
Fixpoint obj_get (k : jstring) (o : obj) : option value :=
  match o with
  | [] => None
  | (k', v) :: o' => if jstring_eq_dec k k' then Some v else obj_get k o'
  end.

Fixpoint obj_replace (k : jstring) (v : value) (o : obj) : obj :=
  match o with
  | [] => []
  | (k', v') :: o' =>
      if jstring_eq_dec k k' then (k', v) :: o'
      else (k', v') :: obj_replace k v o'
  end.

Fixpoint obj_insert_index (n : N) (k : jstring) (v : value) (o : obj) : obj :=
  match o with
  | [] => [(k, v)]
  | (k', v') :: o' =>
      match array_index k' with
      | Some n' =>
          if (n' <? n)%N then (k', v') :: obj_insert_index n k v o'
          else (k, v) :: o
      | None => (k, v) :: o
      end
  end.

(** [o[k] = v] (and the property definition of an object literal): an existing
    property keeps its place, a new one is created. *)
Definition obj_set (k : jstring) (v : value) (o : obj) : obj :=
  match obj_get k o with
  | Some _ => obj_replace k v o
  | None =>
      match array_index k with
      | Some n => obj_insert_index n k v o
      | None => o ++ [(k, v)]
      end
  end.

(** [delete o[k]]. *)
Fixpoint obj_delete (k : jstring) (o : obj) : obj :=
  match o with
  | [] => []
  | (k', v) :: o' =>
      if jstring_eq_dec k k' then obj_delete k o'
      else (k', v) :: obj_delete k o'
  end.

(** [ToString] of an integer-valued number, the property key of [[seg]]. *)
Definition index_key (i : Z) : jstring :=
  lit (NilZero.string_of_int (Z.to_int i)).

(** [o[seg] === c] for a string [c]. *)
Definition holds (o : obj) (k : jstring) (c : jstring) : bool :=
  match obj_get k o with
  | Some (JString s) => if jstring_eq_dec s c then true else false
  | _ => false
  end.

(** ** Completions *)

Inductive error : Type := SyntaxError | TypeError | RangeError.

Inductive completion (A : Type) : Type :=
| Normal (a : A)
| Throw (e : error).
Arguments Normal {A} a.
Arguments Throw {A} e.

Definition bind {A B : Type} (c : completion A) (k : A -> completion B)
  : completion B :=
  match c with
  | Normal a => k a
  | Throw e => Throw e
  end.

(** ** [JSON.parse]

    The JSON grammar of ECMA-404, read by recursive descent.  Object members
    are defined on the result in source order, so a repeated key keeps its
    first place and its last value. *)

Inductive presult (A : Type) : Type :=
| POk (a : A) (rest : jstring)
| PErr
| PFuel.
Arguments POk {A} a rest.
Arguments PErr {A}.
Arguments PFuel {A}.

Definition is_ws (c : N) : bool :=
  ((c =? 9) || (c =? 10) || (c =? 13) || (c =? 32))%N.

Fixpoint skip_ws (s : jstring) : jstring :=
  match s with
  | [] => []
  | c :: s' => if is_ws c then skip_ws s' else s
  end.

Definition hex_value (c : N) : option N :=
  if ((48 <=? c) && (c <=? 57))%N then Some (c - 48)%N
  else if ((97 <=? c) && (c <=? 102))%N then Some (c - 87)%N
  else if ((65 <=? c) && (c <=? 70))%N then Some (c - 55)%N
  else None.

Definition hex4 (a b c d : N) : option N :=
  match hex_value a, hex_value b, hex_value c, hex_value d with
  | Some x, Some y, Some z, Some w =>
      Some (x * 4096 + y * 256 + z * 16 + w)%N
  | _, _, _, _ => None
  end.

(** The character a one-letter escape stands for. *)
Definition simple_escape (c : N) : option N :=
  if (c =? 34)%N then Some 34%N          (* quotation mark *)
  else if (c =? 92)%N then Some 92%N     (* reverse solidus *)
  else if (c =? 47)%N then Some 47%N     (* solidus *)
  else if (c =? 98)%N then Some 8%N      (* backspace *)
  else if (c =? 102)%N then Some 12%N    (* form feed *)
  else if (c =? 110)%N then Some 10%N    (* line feed *)
  else if (c =? 114)%N then Some 13%N    (* carriage return *)
  else if (c =? 116)%N then Some 9%N     (* tab *)
  else None.

(** The rest of a string literal, after its opening quote; [acc] holds the
    characters read so far, last first. *)
Fixpoint parse_string_body (acc : jstring) (s : jstring) : presult jstring :=
  match s with
  | [] => PErr
  | c :: rest =>
      if (c =? 34)%N then POk (rev acc) rest
      else if (c =? 92)%N then
        match rest with
        | [] => PErr
        | e :: rest1 =>
            if (e =? 117)%N then
              match rest1 with
              | h1 :: h2 :: h3 :: h4 :: rest2 =>
                  match hex4 h1 h2 h3 h4 with
                  | Some u => parse_string_body (u :: acc) rest2
                  | None => PErr
                  end
              | _ => PErr
              end
            else
              match simple_escape e with
              | Some x => parse_string_body (x :: acc) rest1
              | None => PErr
              end
        end
      else if (c <? 32)%N then PErr
      else parse_string_body (c :: acc) rest
  end.

Fixpoint take_digits (s : jstring) : jstring * jstring :=
  match s with
  | [] => ([], [])
  | c :: s' =>
      if is_digit c then let '(ds, r) := take_digits s' in (c :: ds, r)
      else ([], s)
  end.

(** The parts of a number, each returning what it read and what is left:
    an optional minus sign; *)
Definition number_sign (s : jstring) : jstring * jstring :=
  match s with
  | c :: s' => if (c =? 45)%N then ([c], s') else ([], s)
  | [] => ([], s)
  end.

(** a single zero, or a non-zero digit and further digits; *)
Definition number_int (s : jstring) : option (jstring * jstring) :=
  match s with
  | [] => None
  | c :: s' =>
      if negb (is_digit c) then None
      else if (c =? 48)%N then Some ([c], s')
      else Some (take_digits s)
  end.

(** optionally a point and one or more digits; *)
Definition number_frac (s : jstring) : option (jstring * jstring) :=
  match s with
  | d :: s' =>
      if (d =? 46)%N then
        match take_digits s' with
        | ([], _) => None
        | (ds, r) => Some (d :: ds, r)
        end
      else Some ([], s)
  | [] => Some ([], s)
  end.

(** optionally e or E, an optional sign and one or more digits. *)
Definition number_exp (s : jstring) : option (jstring * jstring) :=
  match s with
  | e :: s' =>
      if ((e =? 101) || (e =? 69))%N then
        let '(sg, s1) :=
          match s' with
          | g :: s'' =>
              if ((g =? 43) || (g =? 45))%N then ([g], s'') else ([], s')
          | [] => ([], s')
          end in
        match take_digits s1 with
        | ([], _) => None
        | (ds, r) => Some (e :: sg ++ ds, r)
        end
      else Some ([], s)
  | [] => Some ([], s)
  end.

Definition parse_number (s : jstring) : presult jstring :=
  let '(sign, s1) := number_sign s in
  match number_int s1 with
  | None => PErr
  | Some (int, s2) =>
      match number_frac s2 with
      | None => PErr
      | Some (fr, s3) =>
          match number_exp s3 with
          | None => PErr
          | Some (ex, s4) => POk (sign ++ int ++ fr ++ ex) s4
          end
      end
  end.

(** [strip_prefix p s = Some r] when [s = p ++ r]. *)
Fixpoint strip_prefix (p s : jstring) : option jstring :=
  match p, s with
  | [], _ => Some s
  | _ :: _, [] => None
  | a :: p', b :: s' => if (a =? b)%N then strip_prefix p' s' else None
  end.

Fixpoint parse_value (fuel : nat) (s : jstring) {struct fuel}
  : presult value :=
  match fuel with
  | O => PFuel
  | S f =>
      match skip_ws s with
      | [] => PErr
      | c :: rest =>
          if (c =? 123)%N then
            match skip_ws rest with
            | d :: rest' =>
                if (d =? 125)%N then POk (JObject []) rest'
                else parse_members f [] rest
            | [] => PErr
            end
          else if (c =? 91)%N then
            match skip_ws rest with
            | d :: rest' =>
                if (d =? 93)%N then POk (JArray []) rest'
                else parse_elements f [] rest
            | [] => PErr
            end
          else if (c =? 34)%N then
            match parse_string_body [] rest with
            | POk str r => POk (JString str) r
            | PErr => PErr
            | PFuel => PFuel
            end
          else if ((c =? 45)%N || is_digit c)%bool then
            match parse_number (c :: rest) with
            | POk lx r => POk (JNumber lx) r
            | PErr => PErr
            | PFuel => PFuel
            end
          else
            match strip_prefix (lit "true") (c :: rest) with
            | Some r => POk (JBool true) r
            | None =>
                match strip_prefix (lit "false") (c :: rest) with
                | Some r => POk (JBool false) r
                | None =>
                    match strip_prefix (lit "null") (c :: rest) with
                    | Some r => POk JNull r
                    | None => PErr
                    end
                end
            end
      end
  end

(** The elements of an array from the next value on; [acc] holds the
    elements read so far, last first. *)
with parse_elements (fuel : nat) (acc : list value) (s : jstring)
  {struct fuel} : presult value :=
  match fuel with
  | O => PFuel
  | S f =>
      match parse_value f s with
      | POk v r =>
          match skip_ws r with
          | d :: r' =>
              if (d =? 44)%N then parse_elements f (v :: acc) r'
              else if (d =? 93)%N then POk (JArray (rev (v :: acc))) r'
              else PErr
          | [] => PErr
          end
      | PErr => PErr
      | PFuel => PFuel
      end
  end

(** The members of an object from the next key on; [acc] is the object
    built so far. *)
with parse_members (fuel : nat) (acc : obj) (s : jstring)
  {struct fuel} : presult value :=
  match fuel with
  | O => PFuel
  | S f =>
      match skip_ws s with
      | q :: r =>
          if (q =? 34)%N then
            match parse_string_body [] r with
            | POk k r1 =>
                match skip_ws r1 with
                | colon :: r2 =>
                    if (colon =? 58)%N then
                      match parse_value f r2 with
                      | POk v r3 =>
                          match skip_ws r3 with
                          | d :: r4 =>
                              if (d =? 44)%N
                              then parse_members f (obj_set k v acc) r4
                              else if (d =? 125)%N
                              then POk (JObject (obj_set k v acc)) r4
                              else PErr
                          | [] => PErr
                          end
                      | PErr => PErr
                      | PFuel => PFuel
                      end
                    else PErr
                | [] => PErr
                end
            | PErr => PErr
            | PFuel => PFuel
            end
          else PErr
      | [] => PErr
      end
  end.

(** [JSON.parse(text)]: one value, white space around it, nothing else.  The
    budget [2 * length + 1] is never used up ([parse_value_fuel]). *)
Definition JSON_parse (text : jstring) : completion value :=
  match parse_value (2 * List.length text + 1) text with
  | POk v rest =>
      match skip_ws rest with
      | [] => Normal v
      | _ :: _ => Throw SyntaxError
      end
  | PErr => Throw SyntaxError
  | PFuel => Throw RangeError
  end.

(** ** [JSON.stringify] *)

Definition hex_digit (n : N) : N :=
  if (n <? 10)%N then (48 + n)%N else (87 + n)%N.

Definition unicode_escape (c : N) : jstring :=
  [92%N; 117%N; hex_digit (c / 4096); hex_digit ((c / 256) mod 16);
   hex_digit ((c / 16) mod 16); hex_digit (c mod 16)].

Definition is_lead (c : N) : bool := ((55296 <=? c) && (c <=? 56319))%N.
Definition is_trail (c : N) : bool := ((56320 <=? c) && (c <=? 57343))%N.

(** One code unit that is not half of a surrogate pair. *)
Definition quote_unit (c : N) : jstring :=
  if (c =? 8)%N then lit "\b"
  else if (c =? 9)%N then lit "\t"
  else if (c =? 10)%N then lit "\n"
  else if (c =? 12)%N then lit "\f"
  else if (c =? 13)%N then lit "\r"
  else if (c =? 34)%N then [92%N; 34%N]
  else if (c =? 92)%N then [92%N; 92%N]
  else if ((c <? 32)%N || is_lead c || is_trail c)%bool then unicode_escape c
  else [c].

Fixpoint quote_body (s : jstring) : jstring :=
  match s with
  | [] => []
  | c :: s' =>
      match s' with
      | d :: s'' =>
          if (is_lead c && is_trail d)%bool then c :: d :: quote_body s''
          else quote_unit c ++ quote_body s'
      | [] => quote_unit c
      end
  end.

(** [QuoteJSONString]. *)
Definition quote (s : jstring) : jstring := 34%N :: quote_body s ++ [34%N].

Fixpoint join_comma (parts : list jstring) : jstring :=
  match parts with
  | [] => []
  | [p] => p
  | p :: ps => p ++ 44%N :: join_comma ps
  end.

(** [JSON.stringify(v)], no indentation.  A number is written as the text it
    was read from. *)
Fixpoint JSON_stringify (v : value) : jstring :=
  match v with
  | JNull => lit "null"
  | JBool true => lit "true"
  | JBool false => lit "false"
  | JNumber lx => lx
  | JString s => quote s
  | JArray vs => 91%N :: join_comma (map JSON_stringify vs) ++ [93%N]
  | JObject ps =>
      123%N ::
      join_comma
        (map (fun p => quote (fst p) ++ 58%N :: JSON_stringify (snd p)) ps)
      ++ [125%N]
  end.

(** ** [localStorage] *)

Definition Storage := list (jstring * jstring).

Fixpoint getItem (k : jstring) (s : Storage) : option jstring :=
  match s with
  | [] => None
  | (k', v) :: s' => if jstring_eq_dec k k' then Some v else getItem k s'
  end.

Fixpoint removeItem (k : jstring) (s : Storage) : Storage :=
  match s with
  | [] => []
  | (k', v) :: s' =>
      if jstring_eq_dec k k' then removeItem k s'
      else (k', v) :: removeItem k s'
  end.

Fixpoint setItem (k v : jstring) (s : Storage) : Storage :=
  match s with
  | [] => [(k, v)]
  | (k', v') :: s' =>
      if jstring_eq_dec k k' then (k', v) :: s'
      else (k', v') :: setItem k v s'
  end.

Definition LOCAL_STORAGE_KEY : jstring := lit "clockSegmentColors".

(** The initializer of the [segmentColors] state:
    [saved ? JSON.parse(saved) : {}], where an absent item ([null]) and the
    empty string are falsy. *)
Definition init_segmentColors (ls : Storage) : completion value :=
  match getItem LOCAL_STORAGE_KEY ls with
  | None => Normal (JObject [])
  | Some [] => Normal (JObject [])
  | Some (c :: s) => JSON_parse (c :: s)
  end.

(** ** Geometry of the clock face *)

Section Geometry.
Local Open Scope R_scope.

Definition size : R := 700.
Definition center : R := size / 2.
Definition radius : R := center - 10.

(** The part of [getBoundingClientRect()] the component reads. *)
Record DOMRect : Type := { rect_left : R; rect_top : R }.

(** [Math.hypot(a, b)]. *)
Definition hypot (a b : R) : R := sqrt (a * a + b * b).

(** [Math.atan2(y, x)]: the angle of the vector [(x, y)] in (-PI, PI], and 0
    for the null vector. *)
Definition atan2 (y x : R) : R :=
  if Rlt_dec 0 x then atan (y / x)
  else if Rlt_dec x 0 then
    if Rle_dec 0 y then atan (y / x) + PI else atan (y / x) - PI
  else if Rlt_dec 0 y then PI / 2
  else if Rlt_dec y 0 then - (PI / 2)
  else 0.

(** Rounding towards zero. *)
Definition trunc (q : R) : Z :=
  if Rle_dec 0 q then Zfloor q else (- Zfloor (- q))%Z.

(** [a % b]: the remainder has the sign of the dividend. *)
Definition js_rem (a b : R) : R := a - b * IZR (trunc (a / b)).

(** [a > b] as a JavaScript boolean. *)
Definition gtb (a b : R) : bool := if Rgt_dec a b then true else false.

Definition getSegmentIndex (clientX clientY : R) (rect : DOMRect)
  : option Z :=
  let x := clientX - rect_left rect in
  let y := clientY - rect_top rect in
  let dx := x - center in
  let dy := y - center in
  if gtb (hypot dx dy) radius then None
  else
    let angle := atan2 dy dx * (180 / PI) in
    let angle := js_rem (angle + 90 + 360) 360 in
    Some (Zfloor (angle / 15)).

Definition polarToCartesian (angleDeg r : R) : R * R :=
  let rad := angleDeg * PI / 180 in
  (center + r * cos rad, center + r * sin rad).

(** The two boundary angles [renderSegment] draws sector [i] between. *)
Definition startAngle (i : Z) : R := IZR i * 15 - 90.
Definition endAngle (i : Z) : R := (IZR i + 1) * 15 - 90.

End Geometry.

(** ** The component: state, refs and handlers *)

Record MouseEvent : Type := { clientX : R; clientY : R }.

(** An object held in React state: its identity and its properties.  React
    compares states and effect dependencies with [Object.is], that is, by
    identity.  [segmentColors] is an object mapping segment indices to
    colours, as the source documents it. *)
Record ObjRef : Type := { addr : nat; props : obj }.

Record State : Type := mkState {
  segmentColors : ObjRef;            (* useState *)
  activeColor : jstring;             (* useState *)
  dragging : bool;                   (* useState *)
  svgRef : option DOMRect;           (* useRef: null, or the mounted svg *)
  dragStartRef : option (R * R);     (* useRef: null, or {x, y} *)
  draggedRef : bool;                 (* useRef *)
  localStorage : Storage;
  nextAddr : nat;                    (* the next unused object identity *)
  setItemLog : list jstring          (* every value written, latest first *)
}.

(** Every identity in use is below [nextAddr]. *)
Definition wf (st : State) : Prop := (addr (segmentColors st) < nextAddr st)%nat.

Definition set_dragging (b : bool) (st : State) : State :=
  mkState (segmentColors st) (activeColor st) b (svgRef st)
    (dragStartRef st) (draggedRef st) (localStorage st) (nextAddr st)
    (setItemLog st).

Definition set_dragStartRef (p : option (R * R)) (st : State) : State :=
  mkState (segmentColors st) (activeColor st) (dragging st) (svgRef st)
    p (draggedRef st) (localStorage st) (nextAddr st) (setItemLog st).

Definition set_draggedRef (b : bool) (st : State) : State :=
  mkState (segmentColors st) (activeColor st) (dragging st) (svgRef st)
    (dragStartRef st) b (localStorage st) (nextAddr st) (setItemLog st).

Definition setActiveColor (c : jstring) (st : State) : State :=
  mkState (segmentColors st) c (dragging st) (svgRef st)
    (dragStartRef st) (draggedRef st) (localStorage st) (nextAddr st)
    (setItemLog st).

Definition set_localStorage (ls : Storage) (st : State) : State :=
  mkState (segmentColors st) (activeColor st) (dragging st) (svgRef st)
    (dragStartRef st) (draggedRef st) ls (nextAddr st) (setItemLog st).

(** What an updater function returns: the object it was given, or a new
    object. *)
Inductive updated : Type :=
| Same
| Fresh (o : obj).

(** [setSegmentColors(prev => ...)], applied to the current state. *)
Definition setSegmentColors (u : obj -> updated) (st : State) : State :=
  match u (props (segmentColors st)) with
  | Same => st
  | Fresh o =>
      mkState {| addr := nextAddr st; props := o |} (activeColor st)
        (dragging st) (svgRef st) (dragStartRef st) (draggedRef st)
        (localStorage st) (S (nextAddr st)) (setItemLog st)
  end.

Definition handleMouseDown (e : MouseEvent) (st : State) : State :=
  match svgRef st with
  | None => st
  | Some rect =>
      let st1 :=
        set_dragging true
          (set_draggedRef false
             (set_dragStartRef (Some (clientX e, clientY e)) st)) in
      match getSegmentIndex (clientX e) (clientY e) rect with
      | Some seg =>
          let c := activeColor st in
          setSegmentColors
            (fun prev => Fresh (obj_set (index_key seg) (JString c) prev)) st1
      | None => st1
      end
  end.

(** Reading [{x, y}] off a null [dragStartRef.current] throws. *)
Definition handleMouseMove (e : MouseEvent) (st : State) : completion State :=
  if negb (dragging st) then Normal st
  else
    match svgRef st with
    | None => Normal st
    | Some rect =>
        match dragStartRef st with
        | None => Throw TypeError
        | Some (x, y) =>
            let st1 :=
              if (negb (draggedRef st)
                  && gtb (hypot (clientX e - x) (clientY e - y)) 5)%bool
              then set_draggedRef true st
              else st in
            match getSegmentIndex (clientX e) (clientY e) rect with
            | Some seg =>
                let c := activeColor st in
                Normal
                  (setSegmentColors
                     (fun prev =>
                        if holds prev (index_key seg) c then Same
                        else Fresh (obj_set (index_key seg) (JString c) prev))
                     st1)
            | None => Normal st1
            end
        end
    end.

(** The updater of a click: remove the active colour, or set it. *)
Definition toggle (k : jstring) (c : jstring) (prev : obj) : obj :=
  if holds prev k c then obj_delete k prev else obj_set k (JString c) prev.

Definition handleMouseUp (e : MouseEvent) (st : State) : State :=
  match svgRef st with
  | None => st
  | Some rect =>
      let st1 :=
        if negb (draggedRef st) then
          match getSegmentIndex (clientX e) (clientY e) rect with
          | Some seg =>
              let c := activeColor st in
              setSegmentColors
                (fun prev => Fresh (toggle (index_key seg) c prev)) st
          | None => st
          end
        else st in
      set_dragging false st1
  end.

Definition clearClock (st : State) : State :=
  let st1 := setSegmentColors (fun _ => Fresh []) st in
  set_localStorage (removeItem LOCAL_STORAGE_KEY (localStorage st1)) st1.

(** The colour buttons. *)
Definition colors : list (jstring * jstring) :=
  [(lit "blue", lit "Sleep"); (lit "purple", lit "Work");
   (lit "green", lit "Rest"); (lit "yellow", lit "Hobby")].

(** [Object.values(segmentColors).filter(c => c === color).length]. *)
Definition countColor (color : jstring) (st : State) : nat :=
  List.length
    (filter
       (fun p => match snd p with
                 | JString s => if jstring_eq_dec s color then true else false
                 | _ => false
                 end)
       (props (segmentColors st))).

(** The effect with dependency [[segmentColors]]: after a render in which
    [segmentColors] is another object than in the render before, write it. *)
Definition persist (st : State) : State :=
  let text := JSON_stringify (JObject (props (segmentColors st))) in
  mkState (segmentColors st) (activeColor st) (dragging st) (svgRef st)
    (dragStartRef st) (draggedRef st)
    (setItem LOCAL_STORAGE_KEY text (localStorage st)) (nextAddr st)
    (text :: setItemLog st).

Definition useEffect_persist (before after : State) : State :=
  if Nat.eqb (addr (segmentColors before)) (addr (segmentColors after))
  then after
  else persist after.

Inductive Event : Type :=
| MouseDown (e : MouseEvent)
| MouseMove (e : MouseEvent)
| MouseUp (e : MouseEvent)
| ColorClick (c : jstring)
| ClearClick.

Definition handle (ev : Event) (st : State) : completion State :=
  match ev with
  | MouseDown e => Normal (handleMouseDown e st)
  | MouseMove e => handleMouseMove e st
  | MouseUp e => Normal (handleMouseUp e st)
  | ColorClick c => Normal (setActiveColor c st)
  | ClearClick => Normal (clearClock st)
  end.

(** One event: its handler, then the render and its effect. *)
Definition dispatch (ev : Event) (st : State) : completion State :=
  bind (handle ev st) (fun st' => Normal (useEffect_persist st st')).

Fixpoint run (evs : list Event) (st : State) : completion State :=
  match evs with
  | [] => Normal st
  | ev :: evs' => bind (dispatch ev st) (run evs')
  end.

(** Mounting: the state initializers run, the svg is attached to [svgRef],
    the effect runs once.  When the stored text is JSON but not an object
    (a number, a string, an array, null), the component starts on a value
    that is no segment map; what it does from there is not followed here. *)
Inductive mounting : Type :=
| Mounted (st : State)
| MountThrows (e : error)
| MountNotObject (v : value).

Definition mount (ls : Storage) (rect : DOMRect) : mounting :=
  match init_segmentColors ls with
  | Throw e => MountThrows e
  | Normal (JObject o) =>
      Mounted
        (persist
           (mkState {| addr := 0; props := o |} (lit "blue") false
              (Some rect) None false ls 1 []))
  | Normal v => MountNotObject v
  end.

(** ** Vocabulary of the statements *)

(** The states a mounted clock can be in: those that some sequence of events
    leads to from a successful mount. *)
Definition reachable (st : State) : Prop :=
  exists ls rect evs st0,
    mount ls rect = Mounted st0 /\ run evs st0 = Normal st.

(** The segment under an event, and whether a move is beyond the drag
    threshold of the press [d]. *)
Definition resolve (rect : DOMRect) (e : MouseEvent) : option Z :=
  getSegmentIndex (clientX e) (clientY e) rect.

Definition far (d m : MouseEvent) : bool :=
  gtb (hypot (clientX m - clientX d) (clientY m - clientY d)) 5.

(** A gesture is in progress: the press [d] was handled, no release yet. *)
Definition in_gesture (rect : DOMRect) (d : MouseEvent) (st : State) : Prop :=
  svgRef st = Some rect /\ dragging st = true
  /\ dragStartRef st = Some (clientX d, clientY d).

(** What the three updaters do to the properties. *)
Definition paint (k c : jstring) (o : obj) : obj :=
  if holds o k c then o else obj_set k (JString c) o.

Definition press_at (rect : DOMRect) (c : jstring) (o : obj) (d : MouseEvent)
  : obj :=
  match resolve rect d with
  | Some s => obj_set (index_key s) (JString c) o
  | None => o
  end.

Definition paint_at (rect : DOMRect) (c : jstring) (o : obj) (m : MouseEvent)
  : obj :=
  match resolve rect m with
  | Some s => paint (index_key s) c o
  | None => o
  end.

Definition click_at (rect : DOMRect) (c : jstring) (o : obj) (u : MouseEvent)
  : obj :=
  match resolve rect u with
  | Some s => toggle (index_key s) c o
  | None => o
  end.

Section Vocabulary.
Local Open Scope R_scope.


(** The angle of the pointer in degrees, re-based to twelve o'clock:
    (atan2 in degrees + 90 + 360) mod 360. *)
Definition top_angle (x y : R) (rect : DOMRect) : R :=
  js_rem (atan2 (y - rect_top rect - center) (x - rect_left rect - center)
          * (180 / PI) + 90 + 360) 360.

(** An svg whose top-left corner is the origin of the client area; its
    centre is at (350, 350). *)
Definition rect0 : DOMRect := {| rect_left := 0; rect_top := 0 |}.

Definition pointer (x y : R) : MouseEvent := {| clientX := x; clientY := y |}.

(** Pointers over [rect0], by their offset from the centre: 4 right and 3 up
    (in sector 3), 5 right and 2 up (sector 4), 5 right and 1 up (sector 5);
    and further out in the same three directions. *)
Definition in3 : MouseEvent := pointer 354 347.
Definition in4 : MouseEvent := pointer 355 348.
Definition in5 : MouseEvent := pointer 355 349.
Definition out3 : MouseEvent := pointer 362 341.
Definition out4 : MouseEvent := pointer 370 342.
Definition out5 : MouseEvent := pointer 370 346.

End Vocabulary.

(** The state of a clock mounted over empty storage, its svg at [rect0]. *)
Definition initial : State :=
  persist
    (mkState {| addr := 0; props := [] |} (lit "blue") false (Some rect0)
       None false [] 1 []).

Definition green : jstring := lit "green".

(** [initial] after a press at [in3]: a gesture is in progress and segment 3
    holds the active colour ([press_in3]). *)
Definition pressed_in3 : State :=
  let o := [(index_key 3, JString (lit "blue"))] in
  mkState {| addr := 1; props := o |} (lit "blue") true (Some rect0)
    (Some (clientX in3, clientY in3)) false
    [(LOCAL_STORAGE_KEY, JSON_stringify (JObject o))] 2
    [JSON_stringify (JObject o); lit "{}"].

(** ** Vocabulary of the further properties *)

(** The keys of the segments a gesture passes over: under the press and
    under each move. *)
Definition visited_keys (rect : DOMRect) (evs : list MouseEvent)
  : list jstring :=
  flat_map (fun e => match resolve rect e with
                     | Some s => [index_key s]
                     | None => []
                     end) evs.

(** The text the effect stores for a state. *)
Definition stored_text (st : State) : jstring :=
  JSON_stringify (JObject (props (segmentColors st))).

Definition in_sync (st : State) : Prop :=
  getItem LOCAL_STORAGE_KEY (localStorage st) = Some (stored_text st)
  /\ hd_error (setItemLog st) = Some (stored_text st).

(** The keys of the 24 segments, the four colour names, and the events the
    page can deliver: its colour buttons only offer [colors]. *)
Definition segment_keys : list jstring :=
  map (fun n => index_key (Z.of_nat n)) (seq 0 24).

Definition palette : list jstring := map fst colors.

Definition from_page (ev : Event) : Prop :=
  match ev with
  | ColorClick c => In c palette
  | _ => True
  end.

(** Keys in property order. *)
Definition key_lt (k k' : jstring) : Prop :=
  match array_index k, array_index k' with
  | Some a, Some b => (a < b)%N
  | _, _ => False
  end.

(** A map from segments to colour names, in property order. *)
Definition colour_map (o : obj) : Prop :=
  Forall (fun p => In (fst p) segment_keys
                   /\ exists c, snd p = JString c /\ In c palette) o
  /\ StronglySorted key_lt (map fst o).

(** The page keeps a colour map and an active colour of the palette. *)
Definition tidy (st : State) : Prop :=
  colour_map (props (segmentColors st)) /\ In (activeColor st) palette.

Definition count_in (color : jstring) (o : obj) : nat :=
  List.length
    (filter
       (fun p => match snd p with
                 | JString s => if jstring_eq_dec s color then true else false
                 | _ => false
                 end) o).

(** Strings that [JSON.stringify] writes as they are: no quotation mark, no
    reverse solidus, no control character, no surrogate. *)
Definition plain_unit (c : N) : bool :=
  ((32 <=? c) && (c <? 55296) && negb (c =? 34) && negb (c =? 92))%N.

Definition plain (s : jstring) : bool := forallb plain_unit s.

(** The text of one property whose value is a string. *)
Definition member_text (p : jstring * value) : jstring :=
  quote (fst p) ++ 58%N :: JSON_stringify (snd p).

Definition flat_plain (o : obj) : Prop :=
  Forall (fun p => plain (fst p) = true
                   /\ exists c, snd p = JString c /\ plain c = true) o.

Section Sectors.
Local Open Scope R_scope.


End Sectors.

(** While a gesture is in progress its start is recorded, and the svg stays
    attached. *)
Definition gesture_ok (rect : DOMRect) (st : State) : Prop :=
  svgRef st = Some rect
  /\ (dragging st = true -> exists p, dragStartRef st = Some p).

(* ================================================================== *)
(** * Part II.  Properties                                             *)
(* ================================================================== *)

(** ** [JSON.parse] always answers

    Each of the three mutually recursive readers consumes at least one
    character before it is entered again, so the budget of [JSON_parse],
    twice the length of the text, is never used up. *)


Lemma skip_ws_length s : (List.length (skip_ws s) <= List.length s)%nat.
Proof.
  induction s as [|c s IH]; simpl; [lia|].
  destruct (is_ws c); simpl; lia.
Qed.

Lemma parse_string_body_shorter n : forall s acc str r,
  (List.length s <= n)%nat ->
  parse_string_body acc s = POk str r -> (List.length r < List.length s)%nat.
Proof.
  induction n as [|n IH]; intros s acc str r Hn H.
  - destruct s; [discriminate|simpl in Hn; lia].
  - destruct s as [|c rest]; [discriminate|]. simpl in H, Hn.
    destruct (c =? 34)%N.
    { injection H as _ <-. simpl; lia. }
    destruct (c =? 92)%N.
    { destruct rest as [|e rest1]; [discriminate|].
      destruct (e =? 117)%N.
      - destruct rest1 as [|h1 [|h2 [|h3 [|h4 rest2]]]]; try discriminate.
        destruct (hex4 h1 h2 h3 h4); [|discriminate].
        apply IH in H; simpl in *; lia.
      - destruct (simple_escape e); [|discriminate].
        apply IH in H; simpl in *; lia. }
    destruct (c <? 32)%N; [discriminate|].
    apply IH in H; simpl in *; lia.
Qed.

Lemma parse_string_body_no_fuel : forall n s acc,
  (List.length s <= n)%nat -> parse_string_body acc s <> PFuel.
Proof.
  induction n as [|n IH]; intros s acc Hn.
  - destruct s; [discriminate|simpl in Hn; lia].
  - destruct s as [|c rest]; [discriminate|]. simpl in *.
    destruct (c =? 34)%N; [discriminate|].
    destruct (c =? 92)%N.
    { destruct rest as [|e rest1]; [discriminate|].
      destruct (e =? 117)%N.
      - destruct rest1 as [|h1 [|h2 [|h3 [|h4 rest2]]]]; try discriminate.
        destruct (hex4 h1 h2 h3 h4); [|discriminate].
        apply IH; simpl in *; lia.
      - destruct (simple_escape e); [|discriminate].
        apply IH; simpl in *; lia. }
    destruct (c <? 32)%N; [discriminate|].
    apply IH; lia.
Qed.

Lemma take_digits_app s : fst (take_digits s) ++ snd (take_digits s) = s.
Proof.
  induction s as [|c s IH]; simpl; [reflexivity|].
  destruct (is_digit c); [|reflexivity].
  destruct (take_digits s) as [ds r]; simpl in *; now rewrite IH.
Qed.

Lemma number_sign_app s : fst (number_sign s) ++ snd (number_sign s) = s.
Proof.
  destruct s as [|c s]; simpl; [reflexivity|]. now destruct (c =? 45)%N.
Qed.

Lemma number_int_app s p r :
  number_int s = Some (p, r) -> p ++ r = s /\ p <> [].
Proof.
  unfold number_int. destruct s as [|c s']; [discriminate|].
  destruct (is_digit c) eqn:Hd; cbn [negb]; [|discriminate].
  destruct (c =? 48)%N.
  - intros [= <- <-]; split; [reflexivity|discriminate].
  - pose proof (take_digits_app (c :: s')) as E.
    assert (N : fst (take_digits (c :: s')) <> []).
    { simpl. rewrite Hd. destruct (take_digits s'). discriminate. }
    destruct (take_digits (c :: s')) as [p' r'].
    intros [= <- <-]. now split.
Qed.

Lemma number_frac_app s p r : number_frac s = Some (p, r) -> p ++ r = s.
Proof.
  unfold number_frac. destruct s as [|d s']; [now intros [= <- <-]|].
  destruct (d =? 46)%N; [|now intros [= <- <-]].
  pose proof (take_digits_app s') as E.
  destruct (take_digits s') as [[|x ds] r']; [discriminate|].
  intros [= <- <-]. simpl in *. now rewrite E.
Qed.

Lemma number_exp_app s p r : number_exp s = Some (p, r) -> p ++ r = s.
Proof.
  unfold number_exp. destruct s as [|e s']; [now intros [= <- <-]|].
  destruct ((e =? 101) || (e =? 69))%N; [|now intros [= <- <-]].
  destruct s' as [|g s''].
  - simpl. discriminate.
  - destruct ((g =? 43) || (g =? 45))%N.
    + pose proof (take_digits_app s'') as E.
      destruct (take_digits s'') as [[|x ds] r']; [discriminate|].
      intros [= <- <-]. simpl in *. now rewrite E.
    + pose proof (take_digits_app (g :: s'')) as E.
      destruct (take_digits (g :: s'')) as [[|x ds] r']; [discriminate|].
      intros [= <- <-]. simpl in *. now rewrite E.
Qed.

(** A number's text is exactly the prefix that was read. *)
Lemma parse_number_app s lx r :
  parse_number s = POk lx r -> lx ++ r = s /\ lx <> [].
Proof.
  unfold parse_number.
  pose proof (number_sign_app s) as E0.
  destruct (number_sign s) as [sign s1]; cbn [fst snd] in E0.
  destruct (number_int s1) as [[int s2]|] eqn:E1; [|discriminate].
  destruct (number_frac s2) as [[fr s3]|] eqn:E2; [|discriminate].
  destruct (number_exp s3) as [[ex s4]|] eqn:E3; [|discriminate].
  intros [= <- <-].
  apply number_int_app in E1 as [E1 N1].
  apply number_frac_app in E2. apply number_exp_app in E3.
  split.
  - rewrite <- E0, <- E1, <- E2, <- E3. now rewrite <- !app_assoc.
  - destruct sign; [|discriminate]. destruct int; [easy|discriminate].
Qed.

Lemma parse_number_shorter s lx r :
  parse_number s = POk lx r -> (List.length r < List.length s)%nat.
Proof.
  intros H; apply parse_number_app in H as [<- N].
  rewrite length_app. destruct lx; [easy|simpl; lia].
Qed.

Lemma parse_number_no_fuel s : parse_number s <> PFuel.
Proof.
  unfold parse_number.
  destruct (number_sign s) as [sign s1].
  destruct (number_int s1) as [[int s2]|]; [|discriminate].
  destruct (number_frac s2) as [[fr s3]|]; [|discriminate].
  destruct (number_exp s3) as [[ex s4]|]; discriminate.
Qed.

Lemma strip_prefix_app p : forall s r, strip_prefix p s = Some r -> p ++ r = s.
Proof.
  induction p as [|a p IH]; intros s r; simpl.
  - now intros [= <-].
  - destruct s as [|b s]; [discriminate|].
    destruct (a =? b)%N eqn:E; [|discriminate].
    apply N.eqb_eq in E as ->. intros H; apply IH in H. now rewrite H.
Qed.


Lemma strip_prefix_shorter p s r :
  p <> [] -> strip_prefix p s = Some r -> (List.length r < List.length s)%nat.
Proof.
  intros N H; apply strip_prefix_app in H as <-.
  rewrite length_app; destruct p; [easy|simpl; lia].
Qed.

Lemma parse_shorter fuel :
  (forall s v r, parse_value fuel s = POk v r ->
                 (List.length r < List.length s)%nat)
  /\ (forall acc s v r, parse_elements fuel acc s = POk v r ->
                        (List.length r < List.length s)%nat)
  /\ (forall acc s v r, parse_members fuel acc s = POk v r ->
                        (List.length r < List.length s)%nat).
Proof.
  induction fuel as [|f (IHv & IHe & IHm)]; [repeat split; discriminate|].
  repeat split.
  - intros s v r; cbn [parse_value].
    pose proof (skip_ws_length s) as Ls.
    destruct (skip_ws s) as [|c rest]; [discriminate|]. cbn [List.length] in Ls.
    destruct (c =? 123)%N.
    { pose proof (skip_ws_length rest) as Lr.
      destruct (skip_ws rest) as [|d rest']; [discriminate|]. cbn [List.length] in Lr.
      destruct (d =? 125)%N.
      - intros [= _ <-]; lia.
      - intros H; apply IHm in H; lia. }
    destruct (c =? 91)%N.
    { pose proof (skip_ws_length rest) as Lr.
      destruct (skip_ws rest) as [|d rest']; [discriminate|]. cbn [List.length] in Lr.
      destruct (d =? 93)%N.
      - intros [= _ <-]; lia.
      - intros H; apply IHe in H; lia. }
    destruct (c =? 34)%N.
    { destruct (parse_string_body [] rest) as [str r0| |] eqn:E; try discriminate.
      intros [= _ <-]. apply (parse_string_body_shorter (n := List.length rest)) in E; lia. }
    destruct ((c =? 45)%N || is_digit c)%bool.
    { destruct (parse_number (c :: rest)) as [lx r0| |] eqn:E; try discriminate.
      intros [= _ <-]. apply parse_number_shorter in E; simpl in E; lia. }
    destruct (strip_prefix (lit "true") (c :: rest)) as [r0|] eqn:E1.
    { intros [= _ <-]. apply strip_prefix_shorter in E1; [simpl in E1; lia|discriminate]. }
    destruct (strip_prefix (lit "false") (c :: rest)) as [r0|] eqn:E2.
    { intros [= _ <-]. apply strip_prefix_shorter in E2; [simpl in E2; lia|discriminate]. }
    destruct (strip_prefix (lit "null") (c :: rest)) as [r0|] eqn:E3; [|discriminate].
    intros [= _ <-]. apply strip_prefix_shorter in E3; [simpl in E3; lia|discriminate].
  - intros acc s v r; cbn [parse_elements].
    destruct (parse_value f s) as [v0 r0| |] eqn:E; try discriminate.
    apply IHv in E.
    pose proof (skip_ws_length r0) as Lr.
    destruct (skip_ws r0) as [|d r']; [discriminate|]. cbn [List.length] in Lr.
    destruct (d =? 44)%N.
    { intros H; apply IHe in H; lia. }
    destruct (d =? 93)%N; [|discriminate].
    intros [= _ <-]; lia.
  - intros acc s v r; cbn [parse_members].
    pose proof (skip_ws_length s) as Ls.
    destruct (skip_ws s) as [|q r0]; [discriminate|]. cbn [List.length] in Ls.
    destruct (q =? 34)%N; [|discriminate].
    destruct (parse_string_body [] r0) as [k r1| |] eqn:E; try discriminate.
    apply (parse_string_body_shorter (n := List.length r0)) in E; [|lia].
    pose proof (skip_ws_length r1) as L1.
    destruct (skip_ws r1) as [|colon r2]; [discriminate|]. cbn [List.length] in L1.
    destruct (colon =? 58)%N; [|discriminate].
    destruct (parse_value f r2) as [v0 r3| |] eqn:Ev; try discriminate.
    apply IHv in Ev.
    pose proof (skip_ws_length r3) as L3.
    destruct (skip_ws r3) as [|d r4]; [discriminate|]. cbn [List.length] in L3.
    destruct (d =? 44)%N.
    { intros H; apply IHm in H; lia. }
    destruct (d =? 125)%N; [|discriminate].
    intros [= _ <-]; lia.
Qed.

Lemma parse_fuel fuel :
  (forall s, (2 * List.length s + 1 <= fuel)%nat -> parse_value fuel s <> PFuel)
  /\ (forall acc s, (2 * List.length s + 2 <= fuel)%nat ->
                    parse_elements fuel acc s <> PFuel)
  /\ (forall acc s, (2 * List.length s + 2 <= fuel)%nat ->
                    parse_members fuel acc s <> PFuel).
Proof.
  induction fuel as [|f (IHv & IHe & IHm)]; [repeat split; intros; lia|].
  repeat split.
  - intros s Hf; cbn [parse_value].
    pose proof (skip_ws_length s) as Ls.
    destruct (skip_ws s) as [|c rest]; [discriminate|]. cbn [List.length] in Ls.
    destruct (c =? 123)%N.
    { pose proof (skip_ws_length rest) as Lr.
      destruct (skip_ws rest) as [|d rest']; [discriminate|].
      destruct (d =? 125)%N; [discriminate|]. apply IHm; lia. }
    destruct (c =? 91)%N.
    { pose proof (skip_ws_length rest) as Lr.
      destruct (skip_ws rest) as [|d rest']; [discriminate|].
      destruct (d =? 93)%N; [discriminate|]. apply IHe; lia. }
    destruct (c =? 34)%N.
    { pose proof (@parse_string_body_no_fuel (List.length rest) rest [] (le_n _)).
      destruct (parse_string_body [] rest); easy. }
    destruct ((c =? 45)%N || is_digit c)%bool.
    { pose proof (parse_number_no_fuel (c :: rest)).
      destruct (parse_number (c :: rest)); easy. }
    destruct (strip_prefix (lit "true") (c :: rest)); [discriminate|].
    destruct (strip_prefix (lit "false") (c :: rest)); [discriminate|].
    destruct (strip_prefix (lit "null") (c :: rest)); discriminate.
  - intros acc s Hf; cbn [parse_elements].
    pose proof (IHv s) as Hv.
    destruct (parse_value f s) as [v0 r0| |] eqn:E; [|discriminate|apply Hv; lia].
    apply (proj1 (parse_shorter f)) in E.
    pose proof (skip_ws_length r0) as Lr.
    destruct (skip_ws r0) as [|d r']; [discriminate|]. cbn [List.length] in Lr.
    destruct (d =? 44)%N; [apply IHe; lia|].
    destruct (d =? 93)%N; discriminate.
  - intros acc s Hf; cbn [parse_members].
    pose proof (skip_ws_length s) as Ls.
    destruct (skip_ws s) as [|q r0]; [discriminate|]. cbn [List.length] in Ls.
    destruct (q =? 34)%N; [|discriminate].
    pose proof (@parse_string_body_no_fuel (List.length r0) r0 [] (le_n _)) as Hs.
    destruct (parse_string_body [] r0) as [k r1| |] eqn:E; [|discriminate|easy].
    apply (parse_string_body_shorter (n := List.length r0)) in E; [|lia].
    pose proof (skip_ws_length r1) as L1.
    destruct (skip_ws r1) as [|colon r2]; [discriminate|]. cbn [List.length] in L1.
    destruct (colon =? 58)%N; [|discriminate].
    pose proof (IHv r2) as Hv.
    destruct (parse_value f r2) as [v0 r3| |] eqn:Ev; [|discriminate|apply Hv; lia].
    apply (proj1 (parse_shorter f)) in Ev.
    pose proof (skip_ws_length r3) as L3.
    destruct (skip_ws r3) as [|d r4]; [discriminate|]. cbn [List.length] in L3.
    destruct (d =? 44)%N; [apply IHm; lia|].
    destruct (d =? 125)%N; discriminate.
Qed.

Lemma parse_value_fuel text :
  parse_value (2 * List.length text + 1) text <> PFuel.
Proof. apply (proj1 (parse_fuel _)); lia. Qed.

Lemma JSON_parse_total text :
  JSON_parse text = Throw SyntaxError \/ exists v, JSON_parse text = Normal v.
Proof.
  unfold JSON_parse. pose proof (parse_value_fuel text) as H.
  destruct (parse_value (2 * List.length text + 1) text) as [v r| |];
    [|now left|easy].
  destruct (skip_ws r); [right; now exists v|now left].
Qed.


(** ** Objects and storage *)


Lemma obj_get_replace_same k v o :
  obj_get k o <> None -> obj_get k (obj_replace k v o) = Some v.
Proof.
  induction o as [|[k' v'] o IH]; simpl; [easy|].
  destruct (jstring_eq_dec k k') as [E|N]; simpl.
  - now rewrite E; destruct (jstring_eq_dec k' k').
  - destruct (jstring_eq_dec k k'); [easy|apply IH].
Qed.

Lemma obj_get_replace_other k k' v o :
  k' <> k -> obj_get k' (obj_replace k v o) = obj_get k' o.
Proof.
  intros N; induction o as [|[k0 v0] o IH]; simpl; [easy|].
  destruct (jstring_eq_dec k k0) as [E|N0]; simpl.
  - destruct (jstring_eq_dec k' k0); [congruence|easy].
  - destruct (jstring_eq_dec k' k0); [easy|apply IH].
Qed.

Lemma obj_get_insert_index_same n k v o :
  obj_get k o = None -> obj_get k (obj_insert_index n k v o) = Some v.
Proof.
  induction o as [|[k0 v0] o IH]; simpl.
  - now destruct (jstring_eq_dec k k).
  - destruct (jstring_eq_dec k k0) as [E|N]; [discriminate|]. intros H.
    destruct (array_index k0) as [n'|]; [destruct (n' <? n)%N|]; simpl.
    + destruct (jstring_eq_dec k k0); [easy|now apply IH].
    + now destruct (jstring_eq_dec k k).
    + now destruct (jstring_eq_dec k k).
Qed.

Lemma obj_get_insert_index_other n k k' v o :
  k' <> k -> obj_get k' (obj_insert_index n k v o) = obj_get k' o.
Proof.
  intros N; induction o as [|[k0 v0] o IH]; simpl.
  - now destruct (jstring_eq_dec k' k).
  - destruct (array_index k0) as [n'|]; [destruct (n' <? n)%N|]; simpl.
    + destruct (jstring_eq_dec k' k0); [easy|apply IH].
    + now destruct (jstring_eq_dec k' k).
    + now destruct (jstring_eq_dec k' k).
Qed.

Lemma obj_get_app k o o' :
  obj_get k (o ++ o') = match obj_get k o with
                        | Some v => Some v
                        | None => obj_get k o'
                        end.
Proof.
  induction o as [|[k0 v0] o IH]; simpl; [easy|].
  now destruct (jstring_eq_dec k k0).
Qed.

Lemma obj_get_set_same k v o : obj_get k (obj_set k v o) = Some v.
Proof.
  unfold obj_set. destruct (obj_get k o) eqn:E.
  - apply obj_get_replace_same; congruence.
  - destruct (array_index k).
    + now apply obj_get_insert_index_same.
    + rewrite obj_get_app, E; simpl. now destruct (jstring_eq_dec k k).
Qed.

Lemma obj_get_set_other k k' v o :
  k' <> k -> obj_get k' (obj_set k v o) = obj_get k' o.
Proof.
  intros N; unfold obj_set. destruct (obj_get k o) eqn:E.
  - now apply obj_get_replace_other.
  - destruct (array_index k).
    + now apply obj_get_insert_index_other.
    + rewrite obj_get_app; simpl.
      destruct (jstring_eq_dec k' k); [easy|]. now destruct (obj_get k' o).
Qed.

Lemma obj_get_delete_same k o : obj_get k (obj_delete k o) = None.
Proof.
  induction o as [|[k0 v0] o IH]; simpl; [easy|].
  destruct (jstring_eq_dec k k0) as [E|N]; [easy|]; simpl.
  now destruct (jstring_eq_dec k k0).
Qed.

Lemma obj_get_delete_other k k' o :
  k' <> k -> obj_get k' (obj_delete k o) = obj_get k' o.
Proof.
  intros N; induction o as [|[k0 v0] o IH]; simpl; [easy|].
  destruct (jstring_eq_dec k k0) as [E|N0]; simpl.
  - destruct (jstring_eq_dec k' k0); [congruence|easy].
  - destruct (jstring_eq_dec k' k0); [easy|apply IH].
Qed.

Lemma holds_iff o k c :
  holds o k c = true <-> obj_get k o = Some (JString c).
Proof.
  unfold holds. destruct (obj_get k o) as [[]|]; try (split; [discriminate|congruence]).
  destruct (jstring_eq_dec s c) as [->|N]; split; try easy; congruence.
Qed.

Lemma holds_set_same k c o : holds (obj_set k (JString c) o) k c = true.
Proof. apply holds_iff, obj_get_set_same. Qed.

Lemma toggle_get_same k c o :
  obj_get k (toggle k c o)
  = if holds o k c then None else Some (JString c).
Proof.
  unfold toggle. destruct (holds o k c).
  - apply obj_get_delete_same.
  - apply obj_get_set_same.
Qed.

Lemma toggle_get_other k k' c o :
  k' <> k -> obj_get k' (toggle k c o) = obj_get k' o.
Proof.
  intros N; unfold toggle. destruct (holds o k c).
  - now apply obj_get_delete_other.
  - now apply obj_get_set_other.
Qed.

Lemma getItem_setItem_same k v s : getItem k (setItem k v s) = Some v.
Proof.
  induction s as [|[k0 v0] s IH]; simpl.
  - now destruct (jstring_eq_dec k k).
  - destruct (jstring_eq_dec k k0) as [E|N]; simpl.
    + now rewrite E; destruct (jstring_eq_dec k0 k0).
    + now destruct (jstring_eq_dec k k0).
Qed.

Lemma getItem_removeItem_same k s : getItem k (removeItem k s) = None.
Proof.
  induction s as [|[k0 v0] s IH]; simpl; [easy|].
  destruct (jstring_eq_dec k k0) as [E|N]; [easy|]; simpl.
  now destruct (jstring_eq_dec k k0).
Qed.

(** *** The model at work *)

Example JSON_parse_empty_object : JSON_parse (lit "{}") = Normal (JObject []).
Proof. reflexivity. Qed.

Example JSON_parse_rejects_trailing_comma :
  JSON_parse (lit "[1,]") = Throw SyntaxError.
Proof. reflexivity. Qed.

Example JSON_parse_rejects_leading_zero :
  JSON_parse (lit "01") = Throw SyntaxError.
Proof. reflexivity. Qed.

Example JSON_parse_numbers_and_literals :
  JSON_parse (lit " [ -0.5e+10 , true , null ] ")
  = Normal (JArray [JNumber (lit "-0.5e+10"); JBool true; JNull]).
Proof. reflexivity. Qed.

(** What the effect stores after segment 3 was painted blue, and what the
    next start reads back. *)
Example JSON_stringify_one_segment :
  JSON_stringify (JObject [(index_key 3, JString (lit "blue"))])
  = [123; 34; 51; 34; 58; 34]%N ++ lit "blue" ++ [34; 125]%N.
Proof. reflexivity. Qed.

Example JSON_roundtrip_one_segment :
  JSON_parse (JSON_stringify (JObject [(index_key 3, JString (lit "blue"))]))
  = Normal (JObject [(index_key 3, JString (lit "blue"))]).
Proof. reflexivity. Qed.

(** Array-index keys come first, in ascending order, whatever the order of
    insertion; a repeated key keeps its place. *)
Example obj_set_key_order :
  obj_set (index_key 3) JNull
    (obj_set (index_key 10) (JBool true)
       (obj_set (index_key 3) (JBool false)
          (obj_set (lit "x") JNull (obj_set (index_key 10) JNull []))))
  = [(index_key 3, JNull); (index_key 10, JBool true); (lit "x", JNull)].
Proof. reflexivity. Qed.

(** ** Geometry *)

Section GeometryFacts.
Local Open Scope R_scope.

Lemma center_val : center = 350.
Proof. unfold center, size; lra. Qed.

Lemma radius_val : radius = 340.
Proof. unfold radius; rewrite center_val; lra. Qed.

Lemma gtb_true a b : gtb a b = true <-> a > b.
Proof.
  unfold gtb; destruct (Rgt_dec a b); split; intros; try easy; discriminate.
Qed.

Lemma gtb_false a b : gtb a b = false <-> a <= b.
Proof.
  unfold gtb; destruct (Rgt_dec a b); split; intros;
    try easy; try discriminate; lra.
Qed.

(** *** Lengths *)

Lemma hypot_polar r t : 0 <= r -> hypot (r * cos t) (r * sin t) = r.
Proof.
  intros Hr; unfold hypot.
  replace (r * cos t * (r * cos t) + r * sin t * (r * sin t))
    with (r * r * (Rsqr (sin t) + Rsqr (cos t))) by (unfold Rsqr; ring).
  rewrite sin2_cos2, Rmult_1_r; now apply sqrt_square.
Qed.




(** *** Angles *)

Lemma atan2_bounds y x : - PI < atan2 y x <= PI.
Proof.
  pose proof PI_RGT_0 as HPI.
  pose proof (atan_bound (y / x)) as [Hl Hu].
  unfold atan2.
  destruct (Rlt_dec 0 x) as [Hx|Hx]; [lra|].
  destruct (Rlt_dec x 0) as [Hx'|Hx'].
  - assert (Hi : / x < 0) by now apply Rinv_lt_0_compat.
    destruct (Rle_dec 0 y) as [Hy|Hy].
    + assert (Hq : y / x <= 0) by (unfold Rdiv; nra).
      assert (atan (y / x) <= 0).
      { destruct (Req_dec (y / x) 0) as [E|E].
        - rewrite E, atan_0; lra.
        - left; rewrite <- atan_0; apply atan_increasing; lra. }
      lra.
    + assert (Hq : 0 < y / x) by (unfold Rdiv; nra).
      assert (0 < atan (y / x)).
      { rewrite <- atan_0; now apply atan_increasing. }
      lra.
  - destruct (Rlt_dec 0 y); [lra|]. destruct (Rlt_dec y 0); lra.
Qed.


Lemma cos_sub_PI a : cos (a - PI) = - cos a.
Proof. rewrite cos_minus, cos_PI, sin_PI; ring. Qed.

Lemma sin_sub_PI a : sin (a - PI) = - sin a.
Proof. rewrite sin_minus, cos_PI, sin_PI; ring. Qed.




Lemma tan_shift t : cos t <> 0 -> tan t = tan (t - PI).
Proof.
  intros Hc; unfold tan. rewrite cos_sub_PI, sin_sub_PI. field. lra.
Qed.

Lemma polar_quotient r t :
  0 < r -> cos t <> 0 -> r * sin t / (r * cos t) = tan t.
Proof. intros; unfold tan; field; split; lra. Qed.

(** [atan2] inverts the polar form on one turn starting at -PI/2. *)
Lemma atan2_polar r t :
  0 < r -> - (PI / 2) <= t < 3 * (PI / 2) ->
  atan2 (r * sin t) (r * cos t) = if Rle_dec t PI then t else t - 2 * PI.
Proof.
  intros Hr [Hl Hu]. pose proof PI_RGT_0 as HPI.
  destruct (Req_dec t (- (PI / 2))) as [E|NE1].
  { subst t. rewrite cos_neg, sin_neg, cos_PI2, sin_PI2.
    unfold atan2. rewrite Rmult_0_r.
    destruct (Rlt_dec 0 0); [lra|].
    destruct (Rlt_dec 0 (r * - (1))); [lra|].
    destruct (Rlt_dec (r * - (1)) 0); [|lra].
    destruct (Rle_dec (- (PI / 2)) PI); lra. }
  destruct (Rlt_dec t (PI / 2)) as [H1|H1].
  { assert (Hc : 0 < cos t) by (apply cos_gt_0; lra).
    unfold atan2.
    destruct (Rlt_dec 0 (r * cos t)); [|nra].
    rewrite polar_quotient by lra. rewrite atan_tan by lra.
    destruct (Rle_dec t PI); lra. }
  destruct (Req_dec t (PI / 2)) as [E|NE2].
  { subst t. rewrite cos_PI2, sin_PI2.
    unfold atan2. rewrite Rmult_0_r, Rmult_1_r.
    destruct (Rlt_dec 0 0); [lra|].
    destruct (Rlt_dec 0 r); [|lra].
    destruct (Rle_dec (PI / 2) PI); lra. }
  assert (Hc : cos t < 0) by (apply cos_lt_0; lra).
  assert (Hq : atan (r * sin t / (r * cos t)) = t - PI).
  { rewrite polar_quotient by lra. rewrite tan_shift by lra.
    apply atan_tan; lra. }
  unfold atan2.
  destruct (Rlt_dec 0 (r * cos t)); [nra|].
  destruct (Rlt_dec (r * cos t) 0); [|nra].
  rewrite Hq.
  destruct (Rle_dec t PI) as [H2|H2].
  - assert (0 <= sin t) by (apply sin_ge_0; lra).
    destruct (Rle_dec 0 (r * sin t)); [lra|nra].
  - assert (sin t < 0) by (apply sin_lt_0; lra).
    destruct (Rle_dec 0 (r * sin t)); [nra|lra].
Qed.

Lemma degrees_bounds t : - PI < t <= PI -> -180 < t * (180 / PI) <= 180.
Proof.
  intros [Hl Hu]; pose proof PI_RGT_0 as HPI.
  assert (E : t * (180 / PI) = t / PI * 180) by (field; lra).
  rewrite E.
  assert (-1 < t / PI <= 1).
  { split.
    - apply Rmult_lt_reg_r with PI; [easy|].
      unfold Rdiv; rewrite Rmult_assoc, Rinv_l by lra; lra.
    - apply Rmult_le_reg_r with PI; [easy|].
      unfold Rdiv; rewrite Rmult_assoc, Rinv_l by lra; lra. }
  lra.
Qed.

(** *** Remainder and floor *)

Lemma trunc_nonneg q : 0 <= q -> trunc q = Zfloor q.
Proof. unfold trunc; destruct (Rle_dec 0 q); [easy|lra]. Qed.

Lemma js_rem_step a b k :
  0 < b -> 0 <= IZR k * b <= a -> a < (IZR k + 1) * b ->
  js_rem a b = a - IZR k * b.
Proof.
  intros Hb [Hk Hlo] Hhi; unfold js_rem.
  assert (Hq : IZR k <= a / b < IZR k + 1).
  { split.
    - apply Rmult_le_reg_r with b; [easy|].
      unfold Rdiv; rewrite Rmult_assoc, Rinv_l by lra. lra.
    - apply Rmult_lt_reg_r with b; [easy|].
      unfold Rdiv; rewrite Rmult_assoc, Rinv_l by lra. lra. }
  assert (0 <= a / b).
  { apply Rmult_le_reg_r with b; [easy|].
    unfold Rdiv; rewrite Rmult_assoc, Rinv_l by lra. lra. }
  rewrite trunc_nonneg by easy.
  rewrite (Zfloor_eq k) by easy. ring.
Qed.

(** Adding 90 and 360 and reducing modulo 360 re-bases an angle of
    (-180, 180] to [0, 360). *)
Lemma normalize_degrees d :
  -180 < d <= 180 ->
  js_rem (d + 90 + 360) 360 = (if Rlt_dec d (-90) then d + 450 else d + 90).
Proof.
  intros [Hl Hu].
  destruct (Rlt_dec d (-90)) as [H|H].
  - rewrite (@js_rem_step _ _ 0%Z); lra.
  - rewrite (@js_rem_step _ _ 1%Z); lra.
Qed.

Lemma top_angle_range x y rect : 0 <= top_angle x y rect < 360.
Proof.
  unfold top_angle.
  pose proof (degrees_bounds (atan2_bounds (y - rect_top rect - center)
                                (x - rect_left rect - center))) as Hb.
  rewrite normalize_degrees by easy.
  destruct (Rlt_dec _ (-90)); lra.
Qed.

Lemma Zfloor_div15_range a :
  0 <= a < 360 -> (0 <= Zfloor (a / 15) <= 23)%Z.
Proof.
  intros [Hl Hu]; split.
  - apply Zfloor_lub; simpl; lra.
  - assert (Zfloor (a / 15) < 24)%Z; [|lia].
    apply lt_IZR. pose proof (Zfloor_bound (a / 15)). lra.
Qed.


(** *** The hit test *)




(** The hit test inverts [polarToCartesian]: the point at top-relative angle
    [t] and distance [r] from the centre lies in sector [floor (t / 15)]. *)
Lemma getSegmentIndex_polar rect t r :
  0 <= t < 360 -> 0 < r <= radius ->
  getSegmentIndex (rect_left rect + fst (polarToCartesian (t - 90) r))
                  (rect_top rect + snd (polarToCartesian (t - 90) r)) rect
  = Some (Zfloor (t / 15)).
Proof.
  intros [Ht0 Ht1] [Hr0 Hr1]. pose proof PI_RGT_0 as HPI.
  unfold getSegmentIndex, polarToCartesian; cbn [fst snd].
  set (rad := (t - 90) * PI / 180).
  replace (rect_left rect + (center + r * cos rad) - rect_left rect - center)
    with (r * cos rad) by ring.
  replace (rect_top rect + (center + r * sin rad) - rect_top rect - center)
    with (r * sin rad) by ring.
  rewrite hypot_polar by lra.
  assert (G : gtb r radius = false) by now apply gtb_false.
  rewrite G. f_equal. f_equal. f_equal.
  assert (Hrad : - (PI / 2) <= rad < 3 * (PI / 2)) by (unfold rad; nra).
  rewrite atan2_polar by easy.
  assert (Hdeg : rad * (180 / PI) = t - 90) by (unfold rad; field; lra).
  destruct (Rle_dec rad PI) as [H|H].
  - rewrite Hdeg. assert (t <= 270) by (unfold rad in H; nra).
    rewrite (@js_rem_step _ _ 1%Z); lra.
  - assert (270 < t) by (unfold rad in H; nra).
    replace ((rad - 2 * PI) * (180 / PI)) with (rad * (180 / PI) - 360)
      by (field; lra).
    rewrite Hdeg. rewrite (@js_rem_step _ _ 0%Z); lra.
Qed.

(** Every point drawn inside sector [i] (between its two boundary angles,
    the first included) is resolved to [i]. *)
Lemma sector_resolves_to_segment i a r rect :
  (0 <= i <= 23)%Z -> startAngle i <= a < endAngle i -> 0 < r <= radius ->
  getSegmentIndex (rect_left rect + fst (polarToCartesian a r))
                  (rect_top rect + snd (polarToCartesian a r)) rect
  = Some i.
Proof.
  intros [Hi0 Hi1] [Ha0 Ha1] Hr. unfold startAngle, endAngle in *.
  apply IZR_le in Hi0, Hi1.
  replace a with ((a + 90) - 90) by ring.
  rewrite getSegmentIndex_polar; [|lra|easy].
  f_equal. apply Zfloor_eq. lra.
Qed.

(** *** Concrete points

    The sectors are 15 degrees wide, and tan 15 lies between 1/5 and 2/5. *)

Lemma sqrt3_bounds : 17 / 10 < sqrt 3 < 9 / 5.
Proof.
  assert (H0 : 0 <= sqrt 3) by apply sqrt_pos.
  assert (H : sqrt 3 * sqrt 3 = 3) by (apply sqrt_sqrt; lra).
  split; nra.
Qed.

Lemma tan_PI12_bounds : 1 / 5 < tan (PI / 12) < 2 / 5.
Proof.
  pose proof PI_RGT_0 as HPI. pose proof sqrt3_bounds as [Hs1 Hs2].
  assert (Ht0 : 0 < tan (PI / 12)) by (apply tan_gt_0; lra).
  assert (Ht1 : tan (PI / 12) < 1).
  { rewrite <- tan_PI4. apply tan_increasing; lra. }
  assert (Hc : cos (PI / 12) <> 0).
  { apply Rgt_not_eq, cos_gt_0; lra. }
  assert (Hc2 : cos (2 * (PI / 12)) <> 0).
  { apply Rgt_not_eq, cos_gt_0; lra. }
  assert (Hd : 1 - tan (PI / 12) * tan (PI / 12) <> 0) by nra.
  pose proof (tan_2a (PI / 12) Hc Hc2 Hd) as E.
  replace (2 * (PI / 12)) with (PI / 6) in E by field.
  rewrite tan_PI6 in E.
  set (t := tan (PI / 12)) in *.
  assert (E' : 1 - t * t = 2 * t * sqrt 3).
  { apply (f_equal (fun z => z * sqrt 3 * (1 - t * t))) in E.
    field_simplify in E; lra. }
  split; nra.
Qed.

Lemma atan_lt_of_lt_tan x a :
  - (PI / 2) < a < PI / 2 -> x < tan a -> atan x < a.
Proof.
  intros Ha H. rewrite <- (atan_tan a) by lra. now apply atan_increasing.
Qed.

Lemma atan_gt_of_gt_tan x a :
  - (PI / 2) < a < PI / 2 -> tan a < x -> a < atan x.
Proof.
  intros Ha H. rewrite <- (atan_tan a) at 1 by lra. now apply atan_increasing.
Qed.

Lemma atan_one_fifth : 0 < atan (1 / 5) < PI / 12.
Proof.
  pose proof PI_RGT_0 as HPI. pose proof tan_PI12_bounds. split.
  - rewrite <- atan_0. apply atan_increasing; lra.
  - apply atan_lt_of_lt_tan; lra.
Qed.

Lemma atan_two_fifths : PI / 12 < atan (2 / 5) < PI / 6.
Proof.
  pose proof PI_RGT_0 as HPI. pose proof tan_PI12_bounds.
  pose proof sqrt3_bounds as [Hs1 Hs2]. split.
  - apply atan_gt_of_gt_tan; lra.
  - apply atan_lt_of_lt_tan; [lra|]. rewrite tan_PI6.
    apply Rmult_lt_reg_r with (sqrt 3); [lra|]. field_simplify; lra.
Qed.

Lemma atan_three_quarters : PI / 6 < atan (3 / 4) < PI / 4.
Proof.
  pose proof PI_RGT_0 as HPI. pose proof sqrt3_bounds as [Hs1 Hs2]. split.
  - apply atan_gt_of_gt_tan; [lra|]. rewrite tan_PI6.
    apply Rmult_lt_reg_r with (sqrt 3); [lra|]. field_simplify; lra.
  - apply atan_lt_of_lt_tan; [lra|]. rewrite tan_PI4. lra.
Qed.

Lemma hypot_le a b c : 0 <= c -> a * a + b * b <= c * c -> hypot a b <= c.
Proof.
  intros Hc H. unfold hypot. rewrite <- (sqrt_square c) by easy.
  now apply sqrt_le_1_alt.
Qed.

Lemma hypot_gt a b c : 0 <= c -> c * c < a * a + b * b -> hypot a b > c.
Proof.
  intros Hc H. unfold hypot. rewrite <- (sqrt_square c) by easy.
  apply sqrt_lt_1_alt. split; [nra|easy].
Qed.

(** In the upper right quarter of the face, a pointer [dx] to the right of
    the centre and [dy] above it is in sector [i] when the angle of its slope
    [dy / dx] lies between the two boundary directions of the sector. *)
Lemma getSegmentIndex_upper_right dx dy i :
  0 < dx -> 0 <= dy -> dx * dx + dy * dy <= 340 * 340 ->
  (5 - IZR i) * (PI / 12) < atan (dy / dx) <= (6 - IZR i) * (PI / 12) ->
  getSegmentIndex (350 + dx) (350 - dy) rect0 = Some i.
Proof.
  intros Hdx Hdy Hin [Hlo Hhi]. pose proof PI_RGT_0 as HPI.
  unfold getSegmentIndex; cbn [rect_left rect_top rect0].
  rewrite center_val, radius_val.
  replace (350 + dx - 0 - 350) with dx by ring.
  replace (350 - dy - 0 - 350) with (- dy) by ring.
  assert (G : gtb (hypot dx (- dy)) 340 = false).
  { apply gtb_false, hypot_le; [lra|]. nra. }
  rewrite G. f_equal.
  assert (Ha : atan2 (- dy) dx = - atan (dy / dx)).
  { unfold atan2. destruct (Rlt_dec 0 dx); [|lra].
    rewrite <- atan_opp. f_equal. field; lra. }
  rewrite Ha.
  assert (Hb : -180 < - atan (dy / dx) * (180 / PI) <= 180).
  { apply degrees_bounds. pose proof (atan_bound (dy / dx)). lra. }
  rewrite normalize_degrees by easy.
  assert (Hdeg : - atan (dy / dx) * (180 / PI)
                 = - (atan (dy / dx) / (PI / 12)) * 15) by (field; lra).
  assert (Hq : 5 - IZR i < atan (dy / dx) / (PI / 12) <= 6 - IZR i).
  { split.
    - apply Rmult_lt_reg_r with (PI / 12); [lra|].
      unfold Rdiv at 2. rewrite Rmult_assoc, Rinv_l by lra. lra.
    - apply Rmult_le_reg_r with (PI / 12); [lra|].
      unfold Rdiv at 1. rewrite Rmult_assoc, Rinv_l by lra. lra. }
  assert (Hq6 : atan (dy / dx) / (PI / 12) < 6).
  { apply Rmult_lt_reg_r with (PI / 12); [lra|].
    unfold Rdiv at 1. rewrite Rmult_assoc, Rinv_l by lra.
    pose proof (atan_bound (dy / dx)). lra. }
  rewrite Hdeg in *.
  destruct (Rlt_dec _ (-90)); apply Zfloor_eq; lra.
Qed.


Lemma getSegmentIndex_in3 : getSegmentIndex 354 347 rect0 = Some 3%Z.
Proof.
  pose proof atan_three_quarters.
  replace 354 with (350 + 4) by lra. replace 347 with (350 - 3) by lra.
  apply getSegmentIndex_upper_right; simpl; lra.
Qed.

Lemma resolve_in3 : resolve rect0 in3 = Some 3%Z.
Proof. exact getSegmentIndex_in3. Qed.

Lemma resolve_in4 : resolve rect0 in4 = Some 4%Z.
Proof.
  pose proof atan_two_fifths. unfold resolve, in4; cbn [clientX clientY pointer].
  replace 355 with (350 + 5) by lra. replace 348 with (350 - 2) by lra.
  apply getSegmentIndex_upper_right; simpl; lra.
Qed.

Lemma resolve_in5 : resolve rect0 in5 = Some 5%Z.
Proof.
  pose proof atan_one_fifth. unfold resolve, in5; cbn [clientX clientY pointer].
  replace 355 with (350 + 5) by lra. replace 349 with (350 - 1) by lra.
  apply getSegmentIndex_upper_right; simpl; lra.
Qed.

Lemma resolve_out3 : resolve rect0 out3 = Some 3%Z.
Proof.
  pose proof atan_three_quarters.
  unfold resolve, out3; cbn [clientX clientY pointer].
  replace 362 with (350 + 12) by lra. replace 341 with (350 - 9) by lra.
  apply getSegmentIndex_upper_right; try (simpl; lra).
  replace (9 / 12) with (3 / 4) by lra. simpl; lra.
Qed.

Lemma resolve_out4 : resolve rect0 out4 = Some 4%Z.
Proof.
  pose proof atan_two_fifths.
  unfold resolve, out4; cbn [clientX clientY pointer].
  replace 370 with (350 + 20) by lra. replace 342 with (350 - 8) by lra.
  apply getSegmentIndex_upper_right; try (simpl; lra).
  replace (8 / 20) with (2 / 5) by lra. simpl; lra.
Qed.

Lemma resolve_out5 : resolve rect0 out5 = Some 5%Z.
Proof.
  pose proof atan_one_fifth.
  unfold resolve, out5; cbn [clientX clientY pointer].
  replace 370 with (350 + 20) by lra. replace 346 with (350 - 4) by lra.
  apply getSegmentIndex_upper_right; try (simpl; lra).
  replace (4 / 20) with (1 / 5) by lra. simpl; lra.
Qed.

(** The three inner pointers are within 5 units of [in3]; [out3] is 10
    units from it. *)
Lemma near_in3 :
  far in3 in3 = false /\ far in3 in4 = false /\ far in3 in5 = false.
Proof.
  unfold far; cbn [clientX clientY in3 in4 in5 pointer].
  repeat split; apply gtb_false, hypot_le; lra.
Qed.

Lemma far_out3 : far in3 out3 = true.
Proof.
  unfold far; cbn [clientX clientY in3 out3 pointer].
  apply gtb_true, hypot_gt; lra.
Qed.

(** *** The claims on the geometry *)





(** C7.  For every i from 0 to 23, the point that [polarToCartesian] gives
    for the middle angle of sector i (15 i + 7.5 degrees from the top, that
    is 15 i + 7.5 - 90 in the drawing's convention, half-way between the
    boundary angles [startAngle i] and [endAngle i]) at half the radius is
    resolved by [getSegmentIndex] to i. *)
Theorem midpoint_resolves_to_segment i rect :
  (0 <= i <= 23)%Z ->
  (startAngle i + endAngle i) / 2 = IZR i * 15 + 7.5 - 90
  /\ getSegmentIndex
       (rect_left rect
        + fst (polarToCartesian ((startAngle i + endAngle i) / 2)
                 (radius / 2)))
       (rect_top rect
        + snd (polarToCartesian ((startAngle i + endAngle i) / 2)
                 (radius / 2)))
       rect
     = Some i.
Proof.
  intros Hi.
  assert (E : (startAngle i + endAngle i) / 2 = IZR i * 15 + 7.5 - 90)
    by (unfold startAngle, endAngle; lra).
  split; [exact E|].
  apply sector_resolves_to_segment; [exact Hi| |rewrite radius_val; lra].
  rewrite E. unfold startAngle, endAngle. lra.
Qed.

Lemma midpoint_resolves_to_segment_witness :
  (startAngle 5 + endAngle 5) / 2 = IZR 5 * 15 + 7.5 - 90
  /\ getSegmentIndex
       (rect_left rect0
        + fst (polarToCartesian ((startAngle 5 + endAngle 5) / 2)
                 (radius / 2)))
       (rect_top rect0
        + snd (polarToCartesian ((startAngle 5 + endAngle 5) / 2)
                 (radius / 2)))
       rect0
     = Some 5%Z.
Proof. apply (midpoint_resolves_to_segment rect0 (i := 5)). lia. Defined.

End GeometryFacts.

(** ** Handlers, one event at a time *)

Lemma persist_fields a b :
  segmentColors (useEffect_persist a b) = segmentColors b
  /\ activeColor (useEffect_persist a b) = activeColor b
  /\ dragging (useEffect_persist a b) = dragging b
  /\ svgRef (useEffect_persist a b) = svgRef b
  /\ dragStartRef (useEffect_persist a b) = dragStartRef b
  /\ draggedRef (useEffect_persist a b) = draggedRef b
  /\ nextAddr (useEffect_persist a b) = nextAddr b.
Proof.
  unfold useEffect_persist.
  destruct (Nat.eqb _ _); repeat split; reflexivity.
Qed.

Lemma dispatch_MouseDown rect d st :
  svgRef st = Some rect ->
  exists st', dispatch (MouseDown d) st = Normal st'
    /\ in_gesture rect d st'
    /\ activeColor st' = activeColor st
    /\ draggedRef st' = false
    /\ props (segmentColors st')
       = press_at rect (activeColor st) (props (segmentColors st)) d.
Proof.
  intros Hsvg. eexists; split; [reflexivity|].
  unfold in_gesture, press_at, resolve.
  destruct (persist_fields st (handleMouseDown d st))
    as (-> & -> & -> & -> & -> & -> & _).
  unfold handleMouseDown; rewrite Hsvg.
  destruct (getSegmentIndex (clientX d) (clientY d) rect); cbn;
    repeat split; assumption.
Qed.

Lemma dispatch_MouseMove rect d m st :
  in_gesture rect d st ->
  exists st', dispatch (MouseMove m) st = Normal st'
    /\ in_gesture rect d st'
    /\ activeColor st' = activeColor st
    /\ draggedRef st' = (draggedRef st || far d m)%bool
    /\ props (segmentColors st')
       = paint_at rect (activeColor st) (props (segmentColors st)) m.
Proof.
  intros (Hsvg & Hdrag & Hstart).
  unfold dispatch, handle, handleMouseMove.
  rewrite Hdrag, Hsvg, Hstart; cbn [negb bind].
  unfold paint_at, resolve, far, in_gesture.
  destruct (getSegmentIndex (clientX m) (clientY m) rect) as [s|];
    cbn [bind]; eexists; (split; [reflexivity|]);
    match goal with
    | |- context [useEffect_persist ?a ?b] =>
        destruct (persist_fields a b) as (-> & -> & -> & -> & -> & -> & _)
    end.
  - unfold setSegmentColors, paint.
    destruct (draggedRef st) eqn:Hd; cbn [negb andb orb];
      [|destruct (gtb _ 5)]; cbn;
      destruct (holds _ _ _); cbn; repeat split; assumption.
  - destruct (draggedRef st) eqn:Hd; cbn [negb andb orb];
      [|destruct (gtb _ 5)]; cbn; repeat split; assumption.
Qed.

Lemma dispatch_MouseUp rect u st :
  svgRef st = Some rect ->
  exists st', dispatch (MouseUp u) st = Normal st'
    /\ svgRef st' = Some rect
    /\ dragging st' = false
    /\ activeColor st' = activeColor st
    /\ draggedRef st' = draggedRef st
    /\ props (segmentColors st')
       = if draggedRef st then props (segmentColors st)
         else click_at rect (activeColor st) (props (segmentColors st)) u.
Proof.
  intros Hsvg. eexists; split; [reflexivity|].
  destruct (persist_fields st (handleMouseUp u st))
    as (-> & -> & -> & -> & _ & -> & _).
  unfold handleMouseUp, click_at, resolve; rewrite Hsvg.
  destruct (draggedRef st) eqn:Hd; cbn;
    [repeat split; first [assumption|reflexivity]|].
  destruct (getSegmentIndex (clientX u) (clientY u) rect); cbn;
    repeat split; first [assumption|reflexivity].
Qed.

(** ** Whole gestures *)

Lemma run_app evs1 : forall evs2 st,
  run (evs1 ++ evs2) st = bind (run evs1 st) (run evs2).
Proof.
  induction evs1 as [|ev evs1 IH]; intros evs2 st; simpl; [reflexivity|].
  destruct (dispatch ev st) as [st1|e]; simpl; [apply IH|reflexivity].
Qed.

Lemma run_moves rect d ms : forall st,
  in_gesture rect d st ->
  exists st', run (map MouseMove ms) st = Normal st'
    /\ in_gesture rect d st'
    /\ activeColor st' = activeColor st
    /\ draggedRef st' = (draggedRef st || existsb (far d) ms)%bool
    /\ props (segmentColors st')
       = fold_left (paint_at rect (activeColor st)) ms
           (props (segmentColors st)).
Proof.
  induction ms as [|m ms IH]; intros st G.
  - exists st; cbn. rewrite orb_false_r.
    repeat split; try reflexivity; apply G.
  - destruct (dispatch_MouseMove m G) as (st1 & E1 & G1 & A1 & D1 & P1).
    destruct (IH st1 G1) as (st2 & E2 & G2 & A2 & D2 & P2).
    exists st2. cbn [map run existsb fold_left]. rewrite E1; cbn [bind].
    repeat split; try apply G2; try assumption.
    + congruence.
    + rewrite D2, D1. now rewrite orb_assoc.
    + rewrite P2, P1, A1. reflexivity.
Qed.

(** A press, moves and a release: the moves paint; the release toggles
    unless a move went beyond the threshold. *)
Lemma run_gesture rect d ms u st :
  svgRef st = Some rect ->
  exists st', run (MouseDown d :: map MouseMove ms ++ [MouseUp u]) st
              = Normal st'
    /\ svgRef st' = Some rect
    /\ activeColor st' = activeColor st
    /\ dragging st' = false
    /\ draggedRef st' = existsb (far d) ms
    /\ props (segmentColors st')
       = let o := fold_left (paint_at rect (activeColor st)) ms
                    (press_at rect (activeColor st)
                       (props (segmentColors st)) d) in
         if existsb (far d) ms then o
         else click_at rect (activeColor st) o u.
Proof.
  intros Hsvg.
  destruct (dispatch_MouseDown d st Hsvg) as (st1 & E1 & G1 & A1 & D1 & P1).
  destruct (run_moves ms G1) as (st2 & E2 & G2 & A2 & D2 & P2).
  destruct (dispatch_MouseUp u st2 (proj1 G2))
    as (st3 & E3 & S3 & Dr3 & A3 & D3 & P3).
  exists st3. cbn [run]. rewrite E1; cbn [bind].
  rewrite run_app, E2; cbn [bind run]. rewrite E3; cbn [bind].
  rewrite D1 in D2; cbn [orb] in D2.
  repeat split; try assumption; try congruence.
  rewrite P3, D2, P2, P1, A2, A1. reflexivity.
Qed.

Lemma far_true d m :
  far d m = true
  <-> (hypot (clientX m - clientX d) (clientY m - clientY d) > 5)%R.
Proof. apply gtb_true. Qed.

Lemma existsb_far d ms :
  existsb (far d) ms = true
  <-> Exists (fun m => (hypot (clientX m - clientX d)
                              (clientY m - clientY d) > 5)%R) ms.
Proof.
  rewrite existsb_exists, Exists_exists.
  split; intros (m & Hin & H); exists m; (split; [exact Hin|]);
    now apply far_true.
Qed.

Lemma paint_get_same k c o : obj_get k (paint k c o) = Some (JString c).
Proof.
  unfold paint. destruct (holds o k c) eqn:E.
  - now apply holds_iff.
  - apply obj_get_set_same.
Qed.

Lemma paint_get_other k k' c o :
  k' <> k -> obj_get k' (paint k c o) = obj_get k' o.
Proof.
  intros N; unfold paint. destruct (holds o k c); [reflexivity|].
  now apply obj_get_set_other.
Qed.

(** ** The mounted clock *)

Lemma mount_empty : mount [] rect0 = Mounted initial.
Proof. reflexivity. Qed.

Lemma press_in3 : run [MouseDown in3] initial = Normal pressed_in3.
Proof.
  cbn [run bind]. unfold dispatch, handle, handleMouseDown; cbn [bind].
  change (svgRef initial) with (Some rect0); cbv iota.
  change (getSegmentIndex (clientX in3) (clientY in3) rect0)
    with (getSegmentIndex 354 347 rect0).
  rewrite getSegmentIndex_in3. reflexivity.
Qed.

Lemma wf_useEffect_persist a b : wf b -> wf (useEffect_persist a b).
Proof.
  unfold wf, useEffect_persist. now destruct (Nat.eqb _ _).
Qed.

Lemma wf_setSegmentColors u st : wf st -> wf (setSegmentColors u st).
Proof.
  unfold wf, setSegmentColors.
  destruct (u (props (segmentColors st))); cbn; lia.
Qed.

Lemma wf_handle ev st st' : wf st -> handle ev st = Normal st' -> wf st'.
Proof.
  intros W; destruct ev as [e|e|e|c|]; cbn [handle].
  - intros [= <-]. unfold handleMouseDown.
    destruct (svgRef st); [|exact W].
    destruct (getSegmentIndex _ _ _); [apply wf_setSegmentColors|]; exact W.
  - unfold handleMouseMove.
    destruct (dragging st); cbn [negb]; [|now intros [= <-]].
    destruct (svgRef st); [|now intros [= <-]].
    destruct (dragStartRef st) as [[x y]|]; [|discriminate].
    destruct (getSegmentIndex _ _ _); intros [= <-];
      [apply wf_setSegmentColors|];
      destruct (_ && _)%bool; exact W.
  - intros [= <-]. unfold handleMouseUp.
    destruct (svgRef st); [|exact W].
    destruct (draggedRef st); cbn [negb]; [exact W|].
    destruct (getSegmentIndex _ _ _); [|exact W].
    apply (wf_setSegmentColors _ W).
  - intros [= <-]. exact W.
  - intros [= <-]. unfold clearClock.
    apply (wf_setSegmentColors (fun _ => Fresh []) W).
Qed.




(** ** The claims on loading and clearing *)

(** C2, as stated, fails: stored text that is not JSON makes the initializer
    of [segmentColors] throw, and the component does not mount. *)
Lemma malformed_storage_throws :
  JSON_parse (lit "not json") = Throw SyntaxError
  /\ init_segmentColors [(LOCAL_STORAGE_KEY, lit "not json")]
     = Throw SyntaxError
  /\ mount [(LOCAL_STORAGE_KEY, lit "not json")] rect0
     = MountThrows SyntaxError.
Proof. repeat split; reflexivity. Qed.

(** C2, amended.  For every content of the storage: when the item is absent
    or the empty string, the initializer returns an empty map; when it is a
    non-empty text, the initializer does what [JSON.parse] does on it: it
    throws SyntaxError when the text is not JSON, and returns the parsed
    value otherwise.  Nothing else can happen. *)
Theorem init_segmentColors_absent_or_parsed ls :
  (getItem LOCAL_STORAGE_KEY ls = None \/ getItem LOCAL_STORAGE_KEY ls = Some []
   -> init_segmentColors ls = Normal (JObject []))
  /\ (forall text, getItem LOCAL_STORAGE_KEY ls = Some text -> text <> [] ->
        (JSON_parse text = Throw SyntaxError
         -> init_segmentColors ls = Throw SyntaxError)
        /\ (forall v, JSON_parse text = Normal v
                      -> init_segmentColors ls = Normal v))
  /\ (init_segmentColors ls = Throw SyntaxError
      \/ exists v, init_segmentColors ls = Normal v).
Proof.
  unfold init_segmentColors. split; [|split].
  - intros [-> | ->]; reflexivity.
  - intros text Hget Hne. rewrite Hget.
    destruct text; [easy|]. split; [easy|]. intros v Hv; exact Hv.
  - destruct (getItem LOCAL_STORAGE_KEY ls) as [[|c s]|].
    + right; now eexists.
    + apply JSON_parse_total.
    + right; now eexists.
Qed.

Lemma init_segmentColors_absent_or_parsed_witness :
  init_segmentColors [] = Normal (JObject [])
  /\ init_segmentColors [(LOCAL_STORAGE_KEY, lit "{}")] = Normal (JObject []).
Proof.
  split.
  - apply (proj1 (init_segmentColors_absent_or_parsed [])).
    left; reflexivity.
  - apply (proj2 (proj1 (proj2 (init_segmentColors_absent_or_parsed
                                  [(LOCAL_STORAGE_KEY, lit "{}")]))
                    (lit "{}") eq_refl ltac:(discriminate))).
    reflexivity.
Defined.



(** ** The claims on gestures *)

(** A press and a release on the same segment, no move in between: the
    press sets the active colour, so the release always finds it and removes
    it. *)
Lemma click_unassigns rect d u s st :
  svgRef st = Some rect ->
  resolve rect d = Some s -> resolve rect u = Some s ->
  exists st', run [MouseDown d; MouseUp u] st = Normal st'
    /\ obj_get (index_key s) (props (segmentColors st')) = None.
Proof.
  intros Hsvg Hd Hu.
  destruct (run_gesture d [] u st Hsvg) as (st' & E & _ & _ & _ & _ & P).
  exists st'; split; [exact E|].
  rewrite P; cbn [fold_left existsb].
  unfold click_at, press_at; rewrite Hu, Hd.
  rewrite toggle_get_same, holds_set_same. reflexivity.
Qed.

(** C1, what the code does.  On a newly mounted clock (nothing stored,
    active colour blue), segment 3 is unassigned; a press and a release at
    the same point of segment 3 (4 units right of the centre and 3 above
    it), with no move in between, leave segment 3 unassigned, not blue. *)
Theorem click_on_unassigned_segment_leaves_it_unassigned :
  activeColor initial = lit "blue"
  /\ resolve rect0 in3 = Some 3%Z
  /\ obj_get (index_key 3) (props (segmentColors initial)) = None
  /\ exists st',
       run [MouseDown in3; MouseUp in3] initial = Normal st'
       /\ obj_get (index_key 3) (props (segmentColors st')) = None.
Proof.
  split; [reflexivity|]. split; [exact resolve_in3|]. split; [reflexivity|].
  apply (@click_unassigns rect0 in3 in3 3%Z initial);
    [reflexivity|exact resolve_in3|exact resolve_in3].
Qed.



(** C6, as stated, fails.  Over a clock centred at (350, 350): press at
    (354, 347), in segment 3; move there twice, then to (355, 348), in
    segment 4, and to (355, 349), in segment 5; release there.  No move is
    more than 5 units from the press, so the release is a click on segment 5
    and removes the green just painted. *)
Lemma small_moves_then_release_unassign_segment_5 :
  resolve rect0 in3 = Some 3%Z
  /\ resolve rect0 in4 = Some 4%Z
  /\ resolve rect0 in5 = Some 5%Z
  /\ exists st',
       run [ColorClick green;
            MouseDown in3;
            MouseMove in3; MouseMove in3; MouseMove in4; MouseMove in5;
            MouseUp in5] initial = Normal st'
       /\ activeColor st' = green
       /\ obj_get (index_key 5) (props (segmentColors st')) = None.
Proof.
  pose proof resolve_in3 as R3. pose proof resolve_in4 as R4.
  pose proof resolve_in5 as R5. destruct near_in3 as (N3 & N4 & N5).
  repeat (split; [assumption|]).
  set (stg := useEffect_persist initial (setActiveColor green initial)).
  destruct (@run_gesture rect0 in3 [in3; in3; in4; in5] in5 stg eq_refl)
    as (st' & E & _ & A & _ & _ & P).
  exists st'. split; [exact E|]. split; [exact A|].
  rewrite P. cbn [existsb fold_left]. rewrite N3, N4, N5. cbn [orb].
  unfold click_at at 1. rewrite R5, toggle_get_same.
  unfold paint_at at 1. rewrite R5.
  assert (H : forall o, holds (paint (index_key 5) (activeColor stg) o)
                          (index_key 5) (activeColor stg) = true).
  { intros o. apply holds_iff, paint_get_same. }
  now rewrite H.
Qed.

(** C6, amended.  For a gesture that starts with a press on segment 3,
    goes on with moves on segments 3, 3, 4 and 5 with active colour green,
    and ends with a release, where some move lies more than 5 units from
    the press (the gesture is a drag) or the release is outside the face:
    segments 3, 4 and 5 are green afterwards, and every other segment holds
    what it held before. *)
Theorem drag_paints_segments_3_4_5 rect d m1 m2 m3 m4 u st :
  svgRef st = Some rect ->
  activeColor st = green ->
  getSegmentIndex (clientX d) (clientY d) rect = Some 3%Z ->
  getSegmentIndex (clientX m1) (clientY m1) rect = Some 3%Z ->
  getSegmentIndex (clientX m2) (clientY m2) rect = Some 3%Z ->
  getSegmentIndex (clientX m3) (clientY m3) rect = Some 4%Z ->
  getSegmentIndex (clientX m4) (clientY m4) rect = Some 5%Z ->
  Exists (fun m => (hypot (clientX m - clientX d)
                          (clientY m - clientY d) > 5)%R) [m1; m2; m3; m4]
  \/ getSegmentIndex (clientX u) (clientY u) rect = None ->
  exists st',
    run [MouseDown d; MouseMove m1; MouseMove m2; MouseMove m3; MouseMove m4;
         MouseUp u] st = Normal st'
    /\ obj_get (index_key 3) (props (segmentColors st')) = Some (JString green)
    /\ obj_get (index_key 4) (props (segmentColors st')) = Some (JString green)
    /\ obj_get (index_key 5) (props (segmentColors st')) = Some (JString green)
    /\ forall k, k <> index_key 3 -> k <> index_key 4 -> k <> index_key 5 ->
         obj_get k (props (segmentColors st'))
         = obj_get k (props (segmentColors st)).
Proof.
  intros Hsvg Hc Rd R1 R2 R3 R4 Hdrag.
  destruct (run_gesture d [m1; m2; m3; m4] u st Hsvg)
    as (st' & E & _ & _ & _ & _ & P).
  exists st'. split; [exact E|].
  assert (P' : props (segmentColors st')
               = fold_left (paint_at rect (activeColor st)) [m1; m2; m3; m4]
                   (press_at rect (activeColor st)
                      (props (segmentColors st)) d)).
  { rewrite P. cbv zeta. destruct Hdrag as [H|H].
    - apply existsb_far in H. now rewrite H.
    - destruct (existsb (far d) [m1; m2; m3; m4]); [reflexivity|].
      unfold click_at, resolve. now rewrite H. }
  clear P. cbn [fold_left] in P'. unfold paint_at, press_at, resolve in P'.
  rewrite Rd, R1, R2, R3, R4, Hc in P'. rewrite P'.
  assert (N34 : index_key 3 <> index_key 4) by discriminate.
  assert (N35 : index_key 3 <> index_key 5) by discriminate.
  assert (N45 : index_key 4 <> index_key 5) by discriminate.
  repeat split.
  - rewrite !paint_get_other by congruence. apply paint_get_same.
  - rewrite paint_get_other by congruence. apply paint_get_same.
  - apply paint_get_same.
  - intros k K3 K4 K5.
    rewrite !paint_get_other by assumption.
    now apply obj_get_set_other.
Qed.

Lemma drag_paints_segments_3_4_5_witness :
  exists st',
    run [MouseDown in3; MouseMove in3; MouseMove out3; MouseMove out4;
         MouseMove out5; MouseUp out5]
        (setActiveColor green initial) = Normal st'
    /\ obj_get (index_key 3) (props (segmentColors st')) = Some (JString green)
    /\ obj_get (index_key 4) (props (segmentColors st')) = Some (JString green)
    /\ obj_get (index_key 5) (props (segmentColors st')) = Some (JString green)
    /\ forall k, k <> index_key 3 -> k <> index_key 4 -> k <> index_key 5 ->
         obj_get k (props (segmentColors st'))
         = obj_get k (props (segmentColors (setActiveColor green initial))).
Proof.
  apply (@drag_paints_segments_3_4_5 rect0); try reflexivity.
  - exact resolve_in3.
  - exact resolve_in3.
  - exact resolve_out3.
  - exact resolve_out4.
  - exact resolve_out5.
  - left. apply Exists_cons_tl, Exists_cons_hd.
    apply (far_true in3 out3). exact far_out3.
Defined.

(** C9.  For every pointer move during a gesture whose segment already
    holds the active colour: [segmentColors] stays the very same object, and
    nothing is written to the storage. *)
Theorem move_over_painted_segment_is_a_no_op rect m s p st :
  dragging st = true ->
  svgRef st = Some rect ->
  dragStartRef st = Some p ->
  getSegmentIndex (clientX m) (clientY m) rect = Some s ->
  obj_get (index_key s) (props (segmentColors st))
  = Some (JString (activeColor st)) ->
  exists st',
    dispatch (MouseMove m) st = Normal st'
    /\ segmentColors st' = segmentColors st
    /\ localStorage st' = localStorage st
    /\ setItemLog st' = setItemLog st.
Proof.
  intros Hdrag Hsvg Hstart Hseg Hcol.
  apply holds_iff in Hcol.
  unfold dispatch, handle, handleMouseMove.
  rewrite Hdrag, Hsvg, Hstart; destruct p as [x y]; cbn [negb bind].
  rewrite Hseg; cbn [bind].
  eexists; split; [reflexivity|].
  unfold setSegmentColors.
  destruct (negb (draggedRef st)
            && gtb (hypot (clientX m - x) (clientY m - y)) 5)%bool;
    cbn [segmentColors set_draggedRef props]; rewrite Hcol;
    unfold useEffect_persist; cbn [segmentColors set_draggedRef];
    rewrite Nat.eqb_refl; repeat split; reflexivity.
Qed.

Lemma move_over_painted_segment_is_a_no_op_witness :
  exists st',
    dispatch (MouseMove in3) pressed_in3 = Normal st'
    /\ segmentColors st' = segmentColors pressed_in3
    /\ localStorage st' = localStorage pressed_in3
    /\ setItemLog st' = setItemLog pressed_in3.
Proof.
  apply (@move_over_painted_segment_is_a_no_op rect0 in3 3%Z
           (clientX in3, clientY in3) pressed_in3);
    try reflexivity.
  exact getSegmentIndex_in3.
Defined.



(** ** Further properties of the component *)

Lemma visited_keys_cons rect d ms :
  visited_keys rect (d :: ms) = visited_keys rect [d] ++ visited_keys rect ms.
Proof. unfold visited_keys; cbn [flat_map]. now rewrite app_nil_r. Qed.

Lemma fold_paint_at_get rect c ms : forall o k,
  obj_get k (fold_left (paint_at rect c) ms o)
  = if in_dec jstring_eq_dec k (visited_keys rect ms)
    then Some (JString c) else obj_get k o.
Proof.
  induction ms as [|m ms IH]; intros o k; cbn [fold_left visited_keys flat_map].
  - destruct (in_dec _ _ _) as [[]|]; reflexivity.
  - rewrite IH. fold (visited_keys rect ms).
    unfold paint_at.
    destruct (resolve rect m) as [s|]; cbn [app].
    + destruct (in_dec jstring_eq_dec k (visited_keys rect ms)) as [I|NI];
        destruct (in_dec jstring_eq_dec k (index_key s :: visited_keys rect ms))
          as [I'|NI']; try reflexivity.
      * exfalso; apply NI'; now right.
      * destruct I' as [<-|I']; [apply paint_get_same|contradiction].
      * apply paint_get_other. intros ->. apply NI'. now left.
    + reflexivity.
Qed.

Lemma press_at_get rect c o d k :
  obj_get k (press_at rect c o d)
  = if in_dec jstring_eq_dec k (visited_keys rect [d])
    then Some (JString c) else obj_get k o.
Proof.
  unfold press_at, visited_keys; cbn [flat_map].
  destruct (resolve rect d) as [s|]; cbn [app].
  - destruct (in_dec _ _ _) as [[<-|[]]|NI].
    + apply obj_get_set_same.
    + apply obj_get_set_other. intros ->. apply NI. now left.
  - destruct (in_dec _ _ _) as [[]|]; reflexivity.
Qed.

(** X1.  A drag paints what it passes over and nothing else.  On an attached
    svg, a press at [d], moves [ms] of which at least one is more than 5
    pixels from [d], and a release at [u] run without an exception; after
    them every segment that was under the press or under a move holds the
    active colour, every other property of the map is as before (the segment
    under the release is not toggled), and the active colour is unchanged. *)
Theorem drag_paints_the_segments_passed_over rect d ms u st :
  svgRef st = Some rect ->
  Exists (fun m => (hypot (clientX m - clientX d)
                          (clientY m - clientY d) > 5)%R) ms ->
  exists st',
    run (MouseDown d :: map MouseMove ms ++ [MouseUp u]) st = Normal st'
    /\ (forall k, In k (visited_keys rect (d :: ms)) ->
          obj_get k (props (segmentColors st'))
          = Some (JString (activeColor st)))
    /\ (forall k, ~ In k (visited_keys rect (d :: ms)) ->
          obj_get k (props (segmentColors st'))
          = obj_get k (props (segmentColors st)))
    /\ activeColor st' = activeColor st.
Proof.
  intros Hsvg Hfar.
  destruct (run_gesture d ms u st Hsvg) as (st' & E & _ & A & _ & _ & P).
  exists st'. split; [exact E|].
  apply existsb_far in Hfar. rewrite Hfar in P. cbv zeta in P.
  assert (G : forall k, obj_get k (props (segmentColors st'))
              = if in_dec jstring_eq_dec k (visited_keys rect (d :: ms))
                then Some (JString (activeColor st))
                else obj_get k (props (segmentColors st))).
  { intros k. rewrite P, fold_paint_at_get, press_at_get.
    rewrite (visited_keys_cons rect d ms).
    destruct (in_dec jstring_eq_dec k (visited_keys rect ms)) as [I|NI];
      destruct (in_dec jstring_eq_dec k (visited_keys rect [d])) as [I1|NI1];
      destruct (in_dec jstring_eq_dec k
                  (visited_keys rect [d] ++ visited_keys rect ms)) as [I2|NI2];
      try reflexivity; exfalso;
      try (apply NI2, in_or_app; tauto).
    apply in_app_or in I2. tauto. }
  repeat split; [| |exact A].
  - intros k Hk. rewrite G. destruct (in_dec _ _ _); [reflexivity|contradiction].
  - intros k Hk. rewrite G. destruct (in_dec _ _ _); [contradiction|reflexivity].
Qed.

Lemma visited_keys_same rect s ms :
  Forall (fun m => resolve rect m = Some s) ms ->
  forall k, In k (visited_keys rect ms) -> k = index_key s.
Proof.
  induction 1 as [|m ms Hm _ IH]; intros k; cbn [visited_keys flat_map].
  - intros [].
  - rewrite Hm. intros [<-|Hk]; [reflexivity|now apply IH].
Qed.

(** X2.  A click always clears.  On an attached svg, a press, moves that all
    stay within 5 pixels of the press, and a release, all over the same
    segment [s], leave segment [s] without a colour whatever it held before,
    and leave every other property of the map as it was. *)
Theorem click_clears_the_segment rect d ms u s st :
  svgRef st = Some rect ->
  Forall (fun e => getSegmentIndex (clientX e) (clientY e) rect = Some s)
    (d :: ms ++ [u]) ->
  Forall (fun m => (hypot (clientX m - clientX d)
                          (clientY m - clientY d) <= 5)%R) ms ->
  exists st',
    run (MouseDown d :: map MouseMove ms ++ [MouseUp u]) st = Normal st'
    /\ obj_get (index_key s) (props (segmentColors st')) = None
    /\ (forall k, k <> index_key s ->
          obj_get k (props (segmentColors st'))
          = obj_get k (props (segmentColors st))).
Proof.
  intros Hsvg Hres Hnear.
  apply Forall_cons_iff in Hres as [Hd Hres].
  apply Forall_app in Hres as [Hms Hu].
  apply Forall_cons_iff in Hu as [Hu _].
  destruct (run_gesture d ms u st Hsvg) as (st' & E & _ & _ & _ & _ & P).
  exists st'. split; [exact E|].
  assert (X : existsb (far d) ms = false).
  { destruct (existsb (far d) ms) eqn:X; [|reflexivity].
    apply existsb_far, Exists_exists in X as (m & Hin & Hm).
    rewrite Forall_forall in Hnear. specialize (Hnear m Hin). lra. }
  rewrite X in P. cbv zeta in P. unfold click_at, resolve in P.
  rewrite Hu in P. rewrite P.
  assert (Hin : In (index_key s) (visited_keys rect [d])).
  { unfold visited_keys, resolve; cbn [flat_map]. rewrite Hd. now left. }
  split.
  - rewrite toggle_get_same.
    assert (H : holds (fold_left (paint_at rect (activeColor st)) ms
                         (press_at rect (activeColor st)
                            (props (segmentColors st)) d))
                  (index_key s) (activeColor st) = true).
    { apply holds_iff. rewrite fold_paint_at_get, press_at_get.
      destruct (in_dec _ _ (visited_keys rect ms)); [reflexivity|].
      destruct (in_dec _ _ (visited_keys rect [d])); [reflexivity|contradiction]. }
    now rewrite H.
  - intros k Hk. rewrite toggle_get_other by exact Hk.
    rewrite fold_paint_at_get, press_at_get.
    destruct (in_dec _ _ (visited_keys rect ms)) as [I|_].
    { exfalso. apply Hk. exact (@visited_keys_same rect s ms Hms k I). }
    destruct (in_dec _ _ (visited_keys rect [d])) as [I|_]; [|reflexivity].
    exfalso. apply Hk.
    apply (@visited_keys_same rect s [d]); [|exact I].
    constructor; [exact Hd|constructor].
Qed.

Lemma click_clears_the_segment_witness :
  exists st',
    run (MouseDown in3 :: map MouseMove [in3] ++ [MouseUp in3])
      pressed_in3 = Normal st'
    /\ obj_get (index_key 3) (props (segmentColors st')) = None
    /\ (forall k, k <> index_key 3 ->
          obj_get k (props (segmentColors st'))
          = obj_get k (props (segmentColors pressed_in3))).
Proof.
  apply (@click_clears_the_segment rect0 in3 [in3] in3 3%Z pressed_in3).
  - reflexivity.
  - repeat constructor; exact getSegmentIndex_in3.
  - constructor; [|constructor]. cbn [clientX clientY in3 pointer].
    apply hypot_le; lra.
Defined.

Lemma drag_paints_the_segments_passed_over_witness :
  exists st',
    run (MouseDown in3 :: map MouseMove [out3; out4] ++ [MouseUp out4])
      initial = Normal st'
    /\ (forall k, In k (visited_keys rect0 (in3 :: [out3; out4])) ->
          obj_get k (props (segmentColors st'))
          = Some (JString (activeColor initial)))
    /\ (forall k, ~ In k (visited_keys rect0 (in3 :: [out3; out4])) ->
          obj_get k (props (segmentColors st'))
          = obj_get k (props (segmentColors initial)))
    /\ activeColor st' = activeColor initial.
Proof.
  apply (@drag_paints_the_segments_passed_over rect0 in3 [out3; out4] out4
           initial).
  - reflexivity.
  - apply Exists_cons_hd. apply (far_true in3 out3). exact far_out3.
Defined.

(** X3.  Hovering does nothing.  While no gesture is in progress
    ([dragging] is false), any sequence of mouse moves leaves the whole state
    as it is: no segment is painted, the drag flag is not set, nothing is
    written to the storage. *)
Theorem moves_without_a_press_change_nothing ms st :
  dragging st = false -> run (map MouseMove ms) st = Normal st.
Proof.
  intros Hd. induction ms as [|m ms IH]; cbn [map run]; [reflexivity|].
  unfold dispatch, handle, handleMouseMove. rewrite Hd. cbn [negb bind].
  unfold useEffect_persist. rewrite Nat.eqb_refl. exact IH.
Qed.



(** What a handler can do to [segmentColors] and to the storage: nothing, or
    a new object (and then at most [removeItem] of the clock's item). *)
Lemma handle_cases ev st st' :
  handle ev st = Normal st' ->
  (segmentColors st' = segmentColors st
   /\ localStorage st' = localStorage st
   /\ setItemLog st' = setItemLog st)
  \/ (addr (segmentColors st') = nextAddr st
      /\ setItemLog st' = setItemLog st
      /\ (localStorage st' = localStorage st
          \/ localStorage st'
             = removeItem LOCAL_STORAGE_KEY (localStorage st))).
Proof.
  destruct ev as [e|e|e|c|]; cbn [handle].
  - intros [= <-]. unfold handleMouseDown.
    destruct (svgRef st); [|left; repeat split].
    destruct (getSegmentIndex _ _ _); cbn;
      [right; repeat split; now left|left; repeat split].
  - unfold handleMouseMove.
    destruct (dragging st); cbn [negb]; [|intros [= <-]; left; repeat split].
    destruct (svgRef st); [|intros [= <-]; left; repeat split].
    destruct (dragStartRef st) as [[x y]|]; [|discriminate].
    destruct (getSegmentIndex _ _ _); intros [= <-].
    + unfold setSegmentColors.
      destruct (_ && _)%bool; cbn [segmentColors set_draggedRef props];
        destruct (holds _ _ _); cbn;
        first [left; repeat split; reflexivity
              |right; repeat split; now left].
    + destruct (_ && _)%bool; left; repeat split.
  - intros [= <-]. unfold handleMouseUp.
    destruct (svgRef st); [|left; repeat split].
    destruct (draggedRef st); cbn [negb]; [left; repeat split|].
    destruct (getSegmentIndex _ _ _); cbn;
      [right; repeat split; now left|left; repeat split].
  - intros [= <-]. left; repeat split.
  - intros [= <-]. right. cbn. repeat split. now right.
Qed.

Lemma in_sync_dispatch ev st st' :
  wf st -> in_sync st -> dispatch ev st = Normal st' -> in_sync st'.
Proof.
  intros W [S1 S2]. unfold dispatch.
  destruct (handle ev st) as [st1|e] eqn:E; [|discriminate].
  cbn [bind]. intros [= <-].
  destruct (@handle_cases ev st st1 E) as [(Hs & Hl & Hg)|(Ha & _ & _)].
  - unfold useEffect_persist. rewrite Hs, Nat.eqb_refl.
    unfold in_sync, stored_text. now rewrite Hs, Hl, Hg.
  - unfold useEffect_persist, wf in *.
    assert (N : Nat.eqb (addr (segmentColors st)) (addr (segmentColors st1))
                = false) by (apply Nat.eqb_neq; lia).
    rewrite N. unfold in_sync, stored_text, persist; cbn.
    split; [apply getItem_setItem_same|reflexivity].
Qed.

Lemma in_sync_reachable st : reachable st -> in_sync st.
Proof.
  intros (ls & rect & evs & st0 & M & Rn).
  assert (H0 : wf st0 /\ in_sync st0).
  { unfold mount in M.
    destruct (init_segmentColors ls) as [[]|]; try discriminate.
    injection M as <-. split; [unfold wf; cbn; lia|].
    unfold in_sync, stored_text, persist; cbn.
    split; [apply getItem_setItem_same|reflexivity]. }
  clear M. revert st0 H0 Rn.
  induction evs as [|ev evs IH]; intros st0 [W S]; cbn [run].
  - intros [= <-]. exact S.
  - destruct (dispatch ev st0) as [st1|e] eqn:E; [|discriminate]. cbn [bind].
    apply IH. split; [|exact (@in_sync_dispatch ev st0 st1 W S E)].
    unfold dispatch in E.
    destruct (handle ev st0) as [st2|e] eqn:E2; [|discriminate].
    injection E as <-. apply wf_useEffect_persist.
    exact (@wf_handle ev st0 st2 W E2).
Qed.

(** X4.  The stored item follows the map.  In every state the mounted
    component reaches, after the effect of the last render has run, the item
    of the clock in [localStorage] is the JSON text of the current
    [segmentColors], and that text is the last one [setItem] wrote; this
    holds after Clear too, whose [removeItem] is followed by the effect. *)
Theorem storage_holds_the_current_map st :
  reachable st ->
  getItem LOCAL_STORAGE_KEY (localStorage st)
  = Some (JSON_stringify (JObject (props (segmentColors st))))
  /\ hd_error (setItemLog st)
     = Some (JSON_stringify (JObject (props (segmentColors st)))).
Proof.
  intros R. exact (in_sync_reachable R).
Qed.

Lemma storage_holds_the_current_map_witness :
  getItem LOCAL_STORAGE_KEY (localStorage pressed_in3)
  = Some (JSON_stringify (JObject (props (segmentColors pressed_in3))))
  /\ hd_error (setItemLog pressed_in3)
     = Some (JSON_stringify (JObject (props (segmentColors pressed_in3)))).
Proof.
  apply storage_holds_the_current_map.
  exists [], rect0, [MouseDown in3], initial.
  split; [reflexivity|exact press_in3].
Defined.



Lemma moves_without_a_press_change_nothing_witness :
  run (map MouseMove [in3; out4]) initial = Normal initial.
Proof.
  apply (@moves_without_a_press_change_nothing [in3; out4] initial).
  reflexivity.
Defined.

Lemma segment_key_index k :
  In k segment_keys ->
  exists n, array_index k = Some n /\ k = index_key (Z.of_N n).
Proof.
  unfold segment_keys; cbn [seq map].
  intros H.
  repeat (destruct H as [<-|H]; [eexists; split; reflexivity|]).
  destruct H.
Qed.

Lemma segment_key_inj k k' :
  In k segment_keys -> In k' segment_keys ->
  array_index k = array_index k' -> k = k'.
Proof.
  intros H H' E.
  destruct (segment_key_index H) as (n & A & ->).
  destruct (segment_key_index H') as (n' & A' & ->).
  congruence.
Qed.

Lemma index_key_segment s :
  (0 <= s <= 23)%Z -> In (index_key s) segment_keys.
Proof.
  intros H. unfold segment_keys.
  replace s with (Z.of_nat (Z.to_nat s)) by lia.
  apply (in_map (fun n => index_key (Z.of_nat n))).
  apply in_seq. lia.
Qed.

Lemma resolve_segment_key rect e s :
  getSegmentIndex (clientX e) (clientY e) rect = Some s ->
  In (index_key s) segment_keys.
Proof.
  intros H. apply index_key_segment.
  unfold getSegmentIndex in H.
  destruct (gtb _ radius); [discriminate|]. injection H as <-.
  apply Zfloor_div15_range.
  apply (top_angle_range (clientX e) (clientY e) rect).
Qed.

Lemma key_lt_trans a b c : key_lt a b -> key_lt b c -> key_lt a c.
Proof.
  unfold key_lt.
  destruct (array_index a), (array_index b), (array_index c); try easy. lia.
Qed.

Lemma key_lt_irrefl a : ~ key_lt a a.
Proof. unfold key_lt. destruct (array_index a); [lia|easy]. Qed.

Lemma keys_obj_replace k v o : map fst (obj_replace k v o) = map fst o.
Proof.
  induction o as [|[k0 v0] o IH]; simpl; [reflexivity|].
  destruct (jstring_eq_dec k k0); simpl; [reflexivity|now rewrite IH].
Qed.

Lemma keys_obj_insert_index n k v o :
  Permutation (map fst (obj_insert_index n k v o)) (k :: map fst o).
Proof.
  induction o as [|[k0 v0] o IH]; simpl; [reflexivity|].
  destruct (array_index k0) as [n'|]; [destruct (n' <? n)%N|]; simpl;
    try reflexivity.
  rewrite IH. apply perm_swap.
Qed.

Lemma Forall_obj_insert_index (P : jstring * value -> Prop) n k v o :
  P (k, v) -> Forall P o -> Forall P (obj_insert_index n k v o).
Proof.
  intros Hv. induction 1 as [|[k0 v0] o H0 H IH]; simpl.
  - now repeat constructor.
  - destruct (array_index k0) as [n'|]; [destruct (n' <? n)%N|];
      repeat constructor; auto.
Qed.

Lemma Forall_obj_delete (P : jstring * value -> Prop) k o :
  Forall P o -> Forall P (obj_delete k o).
Proof.
  induction 1 as [|[k0 v0] o H0 _ IH]; simpl; [constructor|].
  destruct (jstring_eq_dec k k0); [exact IH|now constructor].
Qed.

Lemma sorted_obj_delete k o :
  StronglySorted key_lt (map fst o) ->
  StronglySorted key_lt (map fst (obj_delete k o))
  /\ forall x, Forall (key_lt x) (map fst o) ->
               Forall (key_lt x) (map fst (obj_delete k o)).
Proof.
  induction o as [|[k0 v0] o IH]; simpl; intros S.
  - split; [constructor|easy].
  - apply StronglySorted_inv in S as [S F]. destruct (IH S) as [IS IF].
    destruct (jstring_eq_dec k k0); simpl.
    + split; [exact IS|]. intros x Hx. apply IF. now inversion Hx.
    + split.
      * constructor; [exact IS|now apply IF].
      * intros x Hx. inversion Hx; subst. constructor; [assumption|now apply IF].
Qed.

Lemma sorted_obj_insert_index n k v o :
  In k segment_keys -> array_index k = Some n -> obj_get k o = None ->
  Forall (fun p => In (fst p) segment_keys) o ->
  StronglySorted key_lt (map fst o) ->
  StronglySorted key_lt (map fst (obj_insert_index n k v o)).
Proof.
  intros Hk Hn. induction o as [|[k0 v0] o IH]; simpl; intros Hg Hs S.
  - repeat constructor.
  - apply StronglySorted_inv in S as [S F].
    apply Forall_cons_iff in Hs as [Hk0 Hs]. change (In k0 segment_keys) in Hk0.
    destruct (jstring_eq_dec k k0) as [E|NE]; [discriminate|].
    destruct (segment_key_index Hk0) as (n0 & A0 & _). rewrite A0.
    destruct (n0 <? n)%N eqn:L; simpl.
    + apply N.ltb_lt in L. constructor; [now apply IH|].
      rewrite keys_obj_insert_index. constructor; [|exact F].
      unfold key_lt. now rewrite A0, Hn.
    + apply N.ltb_ge in L.
      assert (Hlt : key_lt k k0).
      { unfold key_lt. rewrite Hn, A0.
        assert (n <> n0); [|lia]. intros ->. apply NE.
        apply segment_key_inj; [assumption|assumption|congruence]. }
      constructor; [now constructor|].
      constructor; [exact Hlt|].
      eapply Forall_impl; [|exact F]. intros x Hx.
      exact (@key_lt_trans k k0 x Hlt Hx).
Qed.

Lemma colour_map_set k c o :
  In k segment_keys -> In c palette -> colour_map o ->
  colour_map (obj_set k (JString c) o).
Proof.
  intros Hk Hc [F S]. unfold obj_set.
  set (P := fun p : jstring * value =>
              In (fst p) segment_keys
              /\ exists c, snd p = JString c /\ In c palette) in *.
  destruct (obj_get k o) eqn:G.
  - split; [|now rewrite keys_obj_replace].
    clear S G. induction F as [|[k0 v0] o H0 F IH]; cbn [obj_replace];
      [constructor|].
    destruct (jstring_eq_dec k k0) as [->|NE]; constructor;
      [|exact F|exact H0|exact IH].
    split; [exact (proj1 H0)|]. now exists c.
  - destruct (segment_key_index Hk) as (n & A & _). rewrite A. split.
    + apply Forall_obj_insert_index; [|exact F]. split; [exact Hk|now exists c].
    + apply sorted_obj_insert_index; auto.
      eapply Forall_impl; [|exact F]. now intros p [H _].
Qed.

Lemma colour_map_delete k o : colour_map o -> colour_map (obj_delete k o).
Proof.
  intros [F S]. split; [now apply Forall_obj_delete|].
  now apply sorted_obj_delete.
Qed.

Lemma colour_map_paint k c o :
  In k segment_keys -> In c palette -> colour_map o ->
  colour_map (paint k c o).
Proof.
  intros Hk Hc M. unfold paint. destruct (holds o k c); [exact M|].
  now apply colour_map_set.
Qed.

Lemma colour_map_toggle k c o :
  In k segment_keys -> In c palette -> colour_map o ->
  colour_map (toggle k c o).
Proof.
  intros Hk Hc M. unfold toggle. destruct (holds o k c).
  - now apply colour_map_delete.
  - now apply colour_map_set.
Qed.

Lemma colour_map_NoDup o : colour_map o -> NoDup (map fst o).
Proof.
  intros [_ S]. induction S as [|k l S IH F]; constructor; [|exact IH].
  intros Hin. rewrite Forall_forall in F.
  exact (@key_lt_irrefl k (F _ Hin)).
Qed.

Lemma colour_map_length o : colour_map o -> (List.length o <= 24)%nat.
Proof.
  intros M. pose proof (colour_map_NoDup M) as ND. destruct M as [F _].
  rewrite <- (length_map fst).
  change 24%nat with (List.length segment_keys).
  apply NoDup_incl_length; [exact ND|].
  intros k Hk. apply in_map_iff in Hk as (p & <- & Hp).
  rewrite Forall_forall in F. exact (proj1 (F p Hp)).
Qed.

Lemma tidy_useEffect_persist a b : tidy b -> tidy (useEffect_persist a b).
Proof. unfold tidy, useEffect_persist. now destruct (Nat.eqb _ _). Qed.

Lemma tidy_handle ev st st' :
  from_page ev -> tidy st -> handle ev st = Normal st' -> tidy st'.
Proof.
  intros Hev [M A]; destruct ev as [e|e|e|c|]; cbn [handle].
  - intros [= <-]. unfold handleMouseDown.
    destruct (svgRef st) as [rect|]; [|now split].
    destruct (getSegmentIndex _ _ _) as [s|] eqn:G; [|now split].
    split; [|exact A]. cbn. apply colour_map_set; auto.
    exact (@resolve_segment_key rect e s G).
  - unfold handleMouseMove.
    destruct (dragging st); cbn [negb]; [|now intros [= <-]].
    destruct (svgRef st) as [rect|]; [|now intros [= <-]].
    destruct (dragStartRef st) as [[x y]|]; [|discriminate].
    destruct (getSegmentIndex _ _ _) as [s|] eqn:G; intros [= <-].
    + unfold setSegmentColors.
      destruct (_ && _)%bool; cbn [segmentColors set_draggedRef props];
        destruct (holds _ _ _); (split; [|exact A]); cbn; auto;
        apply colour_map_set; auto; exact (@resolve_segment_key rect e s G).
    + destruct (_ && _)%bool; now split.
  - intros [= <-]. unfold handleMouseUp.
    destruct (svgRef st) as [rect|]; [|now split].
    destruct (draggedRef st); cbn [negb]; [now split|].
    destruct (getSegmentIndex _ _ _) as [s|] eqn:G; [|now split].
    split; [|exact A]. cbn. apply colour_map_toggle; auto.
    exact (@resolve_segment_key rect e s G).
  - intros [= <-]. split; [exact M|exact Hev].
  - intros [= <-]. split; [|exact A]. cbn. split; constructor.
Qed.

Lemma tidy_run evs : forall st st',
  Forall from_page evs -> tidy st -> run evs st = Normal st' -> tidy st'.
Proof.
  induction evs as [|ev evs IH]; intros st st' Hevs T; cbn [run].
  - now intros [= <-].
  - apply Forall_cons_iff in Hevs as [Hev Hevs].
    unfold dispatch. destruct (handle ev st) as [st1|e] eqn:E; [|discriminate].
    cbn [bind]. apply IH; [exact Hevs|].
    apply tidy_useEffect_persist. exact (@tidy_handle ev st st1 Hev T E).
Qed.

Lemma palette_blue : In (lit "blue") palette.
Proof. now left. Qed.

Lemma tidy_from_mount ls rect o evs st0 st :
  init_segmentColors ls = Normal (JObject o) -> colour_map o ->
  mount ls rect = Mounted st0 ->
  Forall from_page evs ->
  run evs st0 = Normal st ->
  tidy st.
Proof.
  intros Hi Ho M Hevs Rn.
  apply (@tidy_run evs st0 st Hevs); [|exact Rn].
  unfold mount in M. rewrite Hi in M. injection M as <-.
  split; [exact Ho|exact palette_blue].
Qed.

(** X6.  The map stays a colour map.  When the component mounts on a storage
    that is empty or holds a map from segment keys 0 to 23 to the four
    colour names, then after any events of the page (the colour buttons
    offer the four names only) the keys of [segmentColors] are segment keys
    in ascending order without repetition, its values are among the four
    colour names, the active colour is one of them, and at most 24 segments
    are coloured. *)
Theorem page_keeps_a_colour_map ls rect o evs st0 st :
  init_segmentColors ls = Normal (JObject o) -> colour_map o ->
  mount ls rect = Mounted st0 ->
  Forall from_page evs ->
  run evs st0 = Normal st ->
  colour_map (props (segmentColors st))
  /\ In (activeColor st) palette
  /\ (List.length (props (segmentColors st)) <= 24)%nat.
Proof.
  intros Hi Ho M Hevs Rn.
  destruct (@tidy_from_mount ls rect o evs st0 st Hi Ho M Hevs Rn) as [Mst A].
  repeat split; try assumption; try apply Mst.
  now apply colour_map_length.
Qed.

Lemma countColor_count_in color st :
  countColor color st = count_in color (props (segmentColors st)).
Proof. reflexivity. Qed.

Lemma count_in_cons color k c o :
  count_in color ((k, JString c) :: o)
  = ((if jstring_eq_dec c color then 1 else 0) + count_in color o)%nat.
Proof.
  unfold count_in; cbn [filter snd].
  destruct (jstring_eq_dec c color); reflexivity.
Qed.

Lemma count_in_palette o :
  Forall (fun p => exists c, snd p = JString c /\ In c palette) o ->
  list_sum (map (fun color => count_in color o) palette) = List.length o.
Proof.
  induction 1 as [|[k v] o (c & Hv & Hc) _ IH]; [reflexivity|].
  cbn [snd] in Hv. subst v.
  cbn [palette colors map fst list_sum] in *.
  rewrite !count_in_cons. cbn [List.length].
  destruct Hc as [<-|[<-|[<-|[<-|[]]]]];
    repeat match goal with
           | |- context [jstring_eq_dec ?a ?b] =>
               destruct (jstring_eq_dec a b); try discriminate; try congruence
           end;
    unfold list_sum in *; cbn [fold_right] in *; lia.
Qed.

(** X7.  The counters on the four buttons add up.  Under the conditions of
    the colour map, the sum of [countColor] over the four colours is the
    number of coloured segments, hence at most 24. *)
Theorem counters_add_up ls rect o evs st0 st :
  init_segmentColors ls = Normal (JObject o) -> colour_map o ->
  mount ls rect = Mounted st0 ->
  Forall from_page evs ->
  run evs st0 = Normal st ->
  list_sum (map (fun p => countColor (fst p) st) colors)
  = List.length (props (segmentColors st))
  /\ (list_sum (map (fun p => countColor (fst p) st) colors) <= 24)%nat.
Proof.
  intros Hi Ho M Hevs Rn.
  destruct (@tidy_from_mount ls rect o evs st0 st Hi Ho M Hevs Rn)
    as [Mst _].
  pose proof (colour_map_length Mst) as L. destruct Mst as [F _].
  assert (E : list_sum (map (fun p => countColor (fst p) st) colors)
              = List.length (props (segmentColors st))).
  { rewrite <- (count_in_palette (o := props (segmentColors st))).
    - unfold palette. rewrite map_map. reflexivity.
    - eapply Forall_impl; [|exact F]. now intros p [_ H]. }
  split; [exact E|]. rewrite E. exact L.
Qed.

Lemma plain_unit_spec c :
  plain_unit c = true ->
  (32 <= c)%N /\ (c < 55296)%N /\ c <> 34%N /\ c <> 92%N.
Proof.
  unfold plain_unit. rewrite !andb_true_iff, !negb_true_iff.
  rewrite N.leb_le, N.ltb_lt, !N.eqb_neq. tauto.
Qed.

Lemma quote_unit_plain c : plain_unit c = true -> quote_unit c = [c].
Proof.
  intros H. apply plain_unit_spec in H as (H1 & H2 & H3 & H4).
  unfold quote_unit, is_lead, is_trail.
  repeat match goal with
         | |- context [(?a =? ?b)%N] =>
             destruct (N.eqb_spec a b); [lia|]
         end.
  destruct (N.ltb_spec c 32); [lia|].
  destruct (N.leb_spec 55296 c); [lia|].
  destruct (N.leb_spec 56320 c); [lia|]. reflexivity.
Qed.

Lemma plain_unit_not_lead c : plain_unit c = true -> is_lead c = false.
Proof.
  intros H. apply plain_unit_spec in H as (H1 & H2 & H3 & H4).
  unfold is_lead. destruct (N.leb_spec 55296 c); [lia|reflexivity].
Qed.

Lemma quote_body_plain s : plain s = true -> quote_body s = s.
Proof.
  induction s as [|c s IH]; [reflexivity|]. cbn [plain forallb].
  intros H. apply andb_prop in H as [Hc Hs]. cbn [quote_body].
  rewrite (@plain_unit_not_lead c Hc), (@quote_unit_plain c Hc). cbn [andb].
  destruct s as [|d s']; [reflexivity|].
  cbn [app]. f_equal. exact (IH Hs).
Qed.

Lemma parse_string_body_plain s : forall acc rest,
  plain s = true ->
  parse_string_body acc (s ++ 34%N :: rest) = POk (rev acc ++ s) rest.
Proof.
  induction s as [|c s IH]; intros acc rest; cbn [plain forallb app].
  - intros _. cbn. now rewrite app_nil_r.
  - intros H. apply andb_prop in H as [Hc Hs].
    apply plain_unit_spec in Hc as (H1 & H2 & H3 & H4).
    cbn [parse_string_body].
    destruct (N.eqb_spec c 34); [lia|]. destruct (N.eqb_spec c 92); [lia|].
    destruct (N.ltb_spec c 32); [lia|].
    rewrite (IH (c :: acc) rest Hs). cbn [rev]. now rewrite <- app_assoc.
Qed.

Lemma skip_ws_quote s : skip_ws (34%N :: s) = 34%N :: s.
Proof. reflexivity. Qed.

(** Properties come back in the order they were written when that order is
    the property order. *)
Lemma obj_insert_index_last n k v o :
  Forall (fun p => key_lt (fst p) k) o -> array_index k = Some n ->
  obj_insert_index n k v o = o ++ [(k, v)].
Proof.
  intros F Hn. induction F as [|[k0 v0] o H0 _ IH]; [reflexivity|].
  cbn [obj_insert_index app]. unfold key_lt in H0. cbn [fst] in H0.
  rewrite Hn in H0. destruct (array_index k0) as [n0|]; [|easy].
  apply N.ltb_lt in H0. rewrite H0. now rewrite IH.
Qed.

Lemma obj_get_none_below k o :
  Forall (fun p => key_lt (fst p) k) o -> obj_get k o = None.
Proof.
  induction 1 as [|[k0 v0] o H0 _ IH]; [reflexivity|].
  cbn [obj_get]. destruct (jstring_eq_dec k k0) as [->|]; [|exact IH].
  now apply key_lt_irrefl in H0.
Qed.

Lemma obj_set_last k v o :
  Forall (fun p => key_lt (fst p) k) o -> obj_set k v o = o ++ [(k, v)].
Proof.
  intros F. unfold obj_set. rewrite (@obj_get_none_below k o F).
  destruct (array_index k) as [n|] eqn:A; [|reflexivity].
  now apply obj_insert_index_last.
Qed.

Lemma fold_obj_set_sorted ps : forall acc,
  StronglySorted key_lt (map fst (acc ++ ps)) ->
  fold_left (fun a p => obj_set (fst p) (snd p) a) ps acc = acc ++ ps.
Proof.
  induction ps as [|[k v] ps IH]; intros acc S; cbn [fold_left].
  - now rewrite app_nil_r.
  - cbn [fst snd]. rewrite obj_set_last.
    + rewrite IH; rewrite <- app_assoc; [reflexivity|exact S].
    + clear IH. induction acc as [|[k0 v0] acc IHa]; [constructor|].
      cbn [app map fst] in S. apply StronglySorted_inv in S as [S F].
      constructor; [|now apply IHa].
      cbn [fst]. rewrite Forall_forall in F. apply F.
      rewrite map_app. apply in_or_app. right. now left.
Qed.

Lemma parse_members_text ps : forall fuel acc rest,
  ps <> [] -> flat_plain ps -> (List.length ps < fuel)%nat ->
  parse_members fuel acc (join_comma (map member_text ps) ++ 125%N :: rest)
  = POk (JObject (fold_left (fun a p => obj_set (fst p) (snd p) a) ps acc))
      rest.
Proof.
  induction ps as [|[k v] ps IH]; intros fuel acc rest Hne F Hf; [easy|].
  apply Forall_cons_iff in F as [(Hk & c & Hv & Hc) F].
  cbn [fst snd] in Hk, Hv. subst v.
  destruct fuel as [|[|f]]; cbn [List.length] in Hf; try lia.
  assert (Hm : forall tail,
             member_text (k, JString c) ++ tail
             = 34%N :: k ++ 34%N :: 58%N :: 34%N :: c ++ 34%N :: tail).
  { intros tail. unfold member_text, quote; cbn [fst snd JSON_stringify].
    unfold quote. rewrite !quote_body_plain by assumption.
    cbn [app]. rewrite <- !app_assoc. cbn [app].
    rewrite <- !app_assoc. reflexivity. }
  assert (Hstep : forall d tail, is_ws d = false ->
             parse_members (S (S f)) acc
               (member_text (k, JString c) ++ d :: tail)
             = if (d =? 44)%N
               then parse_members (S f) (obj_set k (JString c) acc) tail
               else if (d =? 125)%N
               then POk (JObject (obj_set k (JString c) acc)) tail
               else PErr).
  { intros d tail Hd. rewrite Hm.
    cbn [parse_members skip_ws is_ws N.eqb orb Pos.eqb].
    rewrite parse_string_body_plain by assumption. cbn [rev app].
    cbn [skip_ws is_ws N.eqb orb Pos.eqb].
    cbn [parse_value skip_ws is_ws N.eqb orb Pos.eqb].
    rewrite parse_string_body_plain by assumption. cbn [rev app].
    cbn [skip_ws]. rewrite Hd. reflexivity. }
  destruct ps as [|p ps].
  - cbn [map join_comma fold_left fst snd].
    rewrite Hstep by reflexivity. reflexivity.
  - change (join_comma (map member_text ((k, JString c) :: p :: ps)))
      with (member_text (k, JString c)
            ++ 44%N :: join_comma (map member_text (p :: ps))).
    rewrite <- app_assoc. cbn [app].
    rewrite Hstep by reflexivity. cbn [N.eqb Pos.eqb].
    cbn [fold_left fst snd].
    apply IH; [discriminate|exact F|cbn [List.length] in *; lia].
Qed.

Lemma join_comma_length parts :
  Forall (fun p : jstring => p <> []) parts ->
  (List.length parts <= List.length (join_comma parts))%nat.
Proof.
  induction 1 as [|p ps Hp _ IH]; [apply Nat.le_refl|].
  destruct p as [|c p]; [easy|].
  destruct ps as [|q ps]; [cbn; lia|].
  change (join_comma ((c :: p) :: q :: ps))
    with ((c :: p) ++ 44%N :: join_comma (q :: ps)).
  rewrite length_app. cbn [List.length] in *. lia.
Qed.

Lemma JSON_object_text o :
  JSON_stringify (JObject o)
  = 123%N :: join_comma (map member_text o) ++ [125%N].
Proof. reflexivity. Qed.

(** Reading back what [JSON.stringify] wrote for a map of plain strings
    whose keys are in property order gives the same map. *)
Lemma JSON_parse_stringify_flat o :
  flat_plain o -> StronglySorted key_lt (map fst o) ->
  JSON_parse (JSON_stringify (JObject o)) = Normal (JObject o).
Proof.
  intros F Hs. destruct o as [|p o]; [reflexivity|].
  rewrite JSON_object_text. unfold JSON_parse.
  set (text := 123%N :: join_comma (map member_text (p :: o)) ++ [125%N]).
  assert (L : (List.length (p :: o) <= List.length text - 2)%nat).
  { unfold text. cbn [List.length]. rewrite length_app. cbn [List.length].
    pose proof (@join_comma_length (map member_text (p :: o))) as J.
    rewrite length_map in J. cbn [List.length] in J.
    assert (Forall (fun q : jstring => q <> []) (map member_text (p :: o))).
    { apply Forall_map, Forall_forall. intros q _. unfold member_text, quote.
      discriminate. }
    specialize (J H). lia. }
  replace (2 * List.length text + 1)%nat
    with (S (2 * List.length text)) by lia.
  unfold text at 2. cbn [parse_value skip_ws is_ws N.eqb orb Pos.eqb].
  assert (Q : exists r, join_comma (map member_text (p :: o)) ++ [125%N]
                        = 34%N :: r).
  { destruct o; cbn [map join_comma]; unfold member_text, quote;
      cbn [app]; eexists; reflexivity. }
  destruct Q as [r Q]. rewrite Q.
  cbn [skip_ws is_ws N.eqb orb Pos.eqb]. rewrite <- Q.
  rewrite parse_members_text; [|discriminate|exact F|subst text; cbn [List.length] in *; rewrite ?length_app in *; cbn [List.length] in *; lia].
  cbn [skip_ws]. rewrite (@fold_obj_set_sorted (p :: o) []); [reflexivity|].
  exact Hs.
Qed.

Lemma segment_keys_plain : Forall (fun k => plain k = true) segment_keys.
Proof. repeat constructor. Qed.

Lemma palette_plain : Forall (fun c => plain c = true) palette.
Proof. repeat constructor. Qed.

Lemma colour_map_flat_plain o : colour_map o -> flat_plain o.
Proof.
  intros [F _]. unfold flat_plain.
  pose proof segment_keys_plain as SK. pose proof palette_plain as P.
  rewrite Forall_forall in SK, P.
  apply Forall_forall. intros p Hp. rewrite Forall_forall in F.
  destruct (F p Hp) as (Hk & c & Hv & Hc).
  split; [now apply SK|]. exists c. split; [exact Hv|now apply P].
Qed.

Lemma JSON_parse_stringify_colour_map o :
  colour_map o ->
  JSON_parse (JSON_stringify (JObject o)) = Normal (JObject o).
Proof.
  intros M. apply JSON_parse_stringify_flat.
  - now apply colour_map_flat_plain.
  - exact (proj2 M).
Qed.

Lemma stringify_object_nonempty o :
  exists c s, JSON_stringify (JObject o) = c :: s.
Proof. rewrite JSON_object_text. eexists _, _. reflexivity. Qed.

(** X8.  Reloading restores the map.  Under the conditions of the colour
    map, mounting the component again on the storage the page left behind
    succeeds ([JSON.parse] reads back what [JSON.stringify] wrote) and starts
    from the same [segmentColors]; the active colour is blue again and no
    gesture is in progress: these are not stored.  The stored item is left
    as it was. *)
Theorem reload_restores_the_map ls rect o evs st0 st rect' :
  init_segmentColors ls = Normal (JObject o) -> colour_map o ->
  mount ls rect = Mounted st0 ->
  Forall from_page evs ->
  run evs st0 = Normal st ->
  exists st2,
    mount (localStorage st) rect' = Mounted st2
    /\ props (segmentColors st2) = props (segmentColors st)
    /\ activeColor st2 = lit "blue"
    /\ dragging st2 = false /\ draggedRef st2 = false
    /\ getItem LOCAL_STORAGE_KEY (localStorage st2)
       = getItem LOCAL_STORAGE_KEY (localStorage st).
Proof.
  intros Hi Ho M Hevs Rn.
  destruct (@tidy_from_mount ls rect o evs st0 st Hi Ho M Hevs Rn)
    as [Mst _].
  assert (R : reachable st) by (exists ls, rect, evs, st0; now split).
  destruct (in_sync_reachable R) as [S _]. unfold stored_text in S.
  assert (I : init_segmentColors (localStorage st)
              = Normal (JObject (props (segmentColors st)))).
  { unfold init_segmentColors. rewrite S.
    destruct (stringify_object_nonempty (props (segmentColors st)))
      as (c & s & E).
    rewrite E, <- E. now apply JSON_parse_stringify_colour_map. }
  unfold mount. rewrite I. eexists. split; [reflexivity|].
  unfold persist;
    cbn [segmentColors props activeColor dragging draggedRef localStorage].
  repeat split. rewrite getItem_setItem_same. symmetry. exact S.
Qed.

Lemma page_keeps_a_colour_map_witness :
  colour_map (props (segmentColors pressed_in3))
  /\ In (activeColor pressed_in3) palette
  /\ (List.length (props (segmentColors pressed_in3)) <= 24)%nat.
Proof.
  apply (@page_keeps_a_colour_map [] rect0 [] [MouseDown in3] initial
           pressed_in3).
  - reflexivity.
  - split; constructor.
  - exact mount_empty.
  - constructor; [exact I|constructor].
  - exact press_in3.
Defined.

Lemma counters_add_up_witness :
  list_sum (map (fun p => countColor (fst p) pressed_in3) colors)
  = List.length (props (segmentColors pressed_in3))
  /\ (list_sum (map (fun p => countColor (fst p) pressed_in3) colors)
      <= 24)%nat.
Proof.
  apply (@counters_add_up [] rect0 [] [MouseDown in3] initial pressed_in3).
  - reflexivity.
  - split; constructor.
  - exact mount_empty.
  - constructor; [exact I|constructor].
  - exact press_in3.
Defined.

Lemma reload_restores_the_map_witness :
  exists st2,
    mount (localStorage pressed_in3) rect0 = Mounted st2
    /\ props (segmentColors st2) = props (segmentColors pressed_in3)
    /\ activeColor st2 = lit "blue"
    /\ dragging st2 = false /\ draggedRef st2 = false
    /\ getItem LOCAL_STORAGE_KEY (localStorage st2)
       = getItem LOCAL_STORAGE_KEY (localStorage pressed_in3).
Proof.
  apply (@reload_restores_the_map [] rect0 [] [MouseDown in3] initial
           pressed_in3 rect0).
  - reflexivity.
  - split; constructor.
  - exact mount_empty.
  - constructor; [exact I|constructor].
  - exact press_in3.
Defined.

Section SectorFacts.
Local Open Scope R_scope.




End SectorFacts.



Lemma setSegmentColors_refs u st :
  svgRef (setSegmentColors u st) = svgRef st
  /\ dragging (setSegmentColors u st) = dragging st
  /\ dragStartRef (setSegmentColors u st) = dragStartRef st.
Proof.
  unfold setSegmentColors. destruct (u _); repeat split.
Qed.

Lemma useEffect_persist_refs a b :
  svgRef (useEffect_persist a b) = svgRef b
  /\ dragging (useEffect_persist a b) = dragging b
  /\ dragStartRef (useEffect_persist a b) = dragStartRef b.
Proof.
  unfold useEffect_persist. destruct (Nat.eqb _ _); repeat split.
Qed.

Lemma gesture_ok_refs rect st st' :
  gesture_ok rect st ->
  svgRef st' = svgRef st -> dragging st' = dragging st ->
  dragStartRef st' = dragStartRef st ->
  gesture_ok rect st'.
Proof.
  intros [Hs Hd] E1 E2 E3. unfold gesture_ok. now rewrite E1, E2, E3.
Qed.

Lemma gesture_ok_handle rect ev st :
  gesture_ok rect st ->
  exists st', handle ev st = Normal st' /\ gesture_ok rect st'.
Proof.
  intros [Hs Hd]. destruct ev as [e|e|e|c|]; cbn [handle].
  - eexists; split; [reflexivity|]. unfold handleMouseDown. rewrite Hs.
    destruct (getSegmentIndex _ _ _);
      [destruct (setSegmentColors_refs
                   (fun prev =>
                      Fresh (obj_set (index_key z) (JString (activeColor st))
                               prev))
                   (set_dragging true
                      (set_draggedRef false
                         (set_dragStartRef (Some (clientX e, clientY e)) st))))
         as (E1 & E2 & E3); unfold gesture_ok; rewrite E1, E2, E3|];
      (split; [exact Hs|intros _; eexists; reflexivity]).
  - unfold handleMouseMove.
    destruct (dragging st) eqn:D; cbn [negb];
      [|eexists; split; [reflexivity|split; [exact Hs|now rewrite D]]].
    rewrite Hs. destruct (Hd eq_refl) as [[x y] Hp]. rewrite Hp.
    set (st1 := if (negb (draggedRef st)
                    && gtb (hypot (clientX e - x) (clientY e - y)) 5)%bool
                then set_draggedRef true st else st).
    assert (G1 : gesture_ok rect st1).
    { apply (@gesture_ok_refs rect st st1);
        [split; [exact Hs|intros _; exists (x, y); exact Hp]| | |];
        unfold st1; destruct (_ && _)%bool; reflexivity. }
    destruct (getSegmentIndex _ _ _);
      (eexists; split; [reflexivity|]); [|exact G1].
    match goal with
    | |- gesture_ok _ (setSegmentColors ?u ?s) =>
        destruct (setSegmentColors_refs u s) as (E1 & E2 & E3)
    end.
    exact (@gesture_ok_refs rect st1 _ G1 E1 E2 E3).
  - eexists; split; [reflexivity|]. unfold handleMouseUp. rewrite Hs.
    split; [|discriminate].
    destruct (negb (draggedRef st)); [|exact Hs].
    destruct (getSegmentIndex _ _ _); [|exact Hs].
    cbn [svgRef set_dragging].
    match goal with
    | |- svgRef (setSegmentColors ?u ?s) = _ =>
        destruct (setSegmentColors_refs u s) as (E1 & _)
    end.
    now rewrite E1.
  - eexists; split; [reflexivity|]. split; assumption.
  - eexists; split; [reflexivity|]. split; assumption.
Qed.

Lemma gesture_ok_run rect evs : forall st,
  gesture_ok rect st ->
  exists st', run evs st = Normal st' /\ gesture_ok rect st'.
Proof.
  induction evs as [|ev evs IH]; intros st G; cbn [run].
  - now exists st.
  - destruct (@gesture_ok_handle rect ev st G) as (st1 & E & G1).
    unfold dispatch. rewrite E. cbn [bind]. apply IH.
    destruct (useEffect_persist_refs st st1) as (E1 & E2 & E3).
    exact (@gesture_ok_refs rect st1 _ G1 E1 E2 E3).
Qed.

(** X10.  Once mounted, no handler throws.  Whatever events follow the
    mount, each is handled without an exception; the svg stays attached, and
    while a gesture is in progress the position of its press is recorded, so
    that [handleMouseMove] never reads the coordinates of [null]. *)
Theorem mounted_page_never_throws ls rect st0 evs :
  mount ls rect = Mounted st0 ->
  exists st,
    run evs st0 = Normal st
    /\ svgRef st = Some rect
    /\ (dragging st = true -> exists p, dragStartRef st = Some p).
Proof.
  intros M. apply gesture_ok_run.
  unfold mount in M. destruct (init_segmentColors ls) as [[]|];
    try discriminate.
  injection M as <-. split; [reflexivity|discriminate].
Qed.

Lemma mounted_page_never_throws_witness :
  exists st,
    run [MouseMove in3; MouseUp in3; MouseDown out3; MouseMove in4] initial
    = Normal st
    /\ svgRef st = Some rect0
    /\ (dragging st = true -> exists p, dragStartRef st = Some p).
Proof.
  apply (@mounted_page_never_throws [] rect0 initial). exact mount_empty.
Defined.
